(** * PageRank (CS50ai, [pagerank/pagerank.py]): a shallow embedding

    The three functions of the ranking engine, [transition_model],
    [sample_pagerank] and [iterate_pagerank], are translated statement by
    statement.  Modelling decisions:

    - Python numbers (ints and floats) are read as exact rationals [Q];
      equality of numbers is [Qeq] ([==]).  A statement about these
      definitions is a statement about the exact arithmetic that the
      floating-point code approximates.  Where rounding decides, the loop of
      [iterate_pagerank] is given a second time on binary64 floats, in
      [Binary64].
    - A [dict] is an association list in insertion order (Python dicts keep
      it, and [list(corpus)] exposes it to [random.choice]); a dict never
      repeats a key, which the theorems take as [NoDup] of the keys.
    - A [set] of pages is a duplicate-free list used only through [len] and
      [in], as in the source.
    - Exceptions are values of [exn]; a computation returns [result].
    - The [random] module is an explicit source of draws threaded through
      [sample_pagerank].
    - The [while] loop of [iterate_pagerank] runs on fuel; [None] means the
      fuel ran out before the loop condition became false. *)

From Stdlib Require Import List String ZArith QArith Qabs Qround Lqa Lia Bool Arith.
From Stdlib Require Import DecimalString PrimFloat.
From Stdlib Require Uint63.
Import ListNotations.
Open Scope Q_scope.

(** ** Run-time values and errors *)

Definition page := string.

Inductive exn : Type :=
| ZeroDivisionError
| KeyError
| IndexError
| ValueError
| TypeError.

Inductive result (A : Type) : Type :=
| Ok (a : A)
| Raise (e : exn).
Arguments Ok {A} a.
Arguments Raise {A} e.

Definition bind {A B} (m : result A) (k : A -> result B) : result B :=
  match m with
  | Ok a => k a
  | Raise e => Raise e
  end.

Notation "x <- m ;; k" := (bind m (fun x => k))
  (at level 61, m at next level, right associativity).

(** [for x in xs: acc = body(acc, x)], stopping at the first exception. *)
Fixpoint for_each {A S} (body : S -> A -> result S) (xs : list A) (acc : S)
  : result S :=
  match xs with
  | [] => Ok acc
  | x :: xs' => acc' <- body acc x ;; for_each body xs' acc'
  end.

(** A comprehension [[f(x) for x in xs]] whose element may raise. *)
Fixpoint map_result {A B} (f : A -> result B) (xs : list A) : result (list B) :=
  match xs with
  | [] => Ok []
  | x :: xs' => y <- f x ;; ys <- map_result f xs' ;; Ok (y :: ys)
  end.

(** [len(x)] as a number. *)
Definition len {A} (l : list A) : Q := inject_Z (Z.of_nat (List.length l)).

(** [a / b]: true division, [ZeroDivisionError] on a zero divisor. *)
Definition pydiv (a b : Q) : result Q :=
  if Qeq_bool b 0 then Raise ZeroDivisionError else Ok (a / b).

(** [a > b] *)
Definition Qgt_bool (a b : Q) : bool := negb (Qle_bool a b).

(** [sum(xs)]: left to right from 0. *)
Definition pysum (xs : list Q) : Q := fold_left Qplus xs 0.

(** [page_name in links] for a set of pages. *)
Definition mem (p : page) (s : list page) : bool := existsb (String.eqb p) s.

(** ** Dictionaries *)

Module Dict.

Definition t (V : Type) := list (page * V).

Definition keys {V} (d : t V) : list page := map fst d.
Definition values {V} (d : t V) : list V := map snd d.

Fixpoint get {V} (d : t V) (k : page) : option V :=
  match d with
  | [] => None
  | (k', v) :: d' => if String.eqb k k' then Some v else get d' k
  end.

(** [d[k] = v]: overwrite in place, or insert at the end. *)
Fixpoint set {V} (d : t V) (k : page) (v : V) : t V :=
  match d with
  | [] => [(k, v)]
  | (k', v') :: d' =>
      if String.eqb k k' then (k', v) :: d' else (k', v') :: set d' k v
  end.

(** [k in d] *)
Definition has {V} (d : t V) (k : page) : bool :=
  match get d k with Some _ => true | None => false end.

(** [d[k]] as an expression: [KeyError] on a missing key. *)
Definition getitem {V} (d : t V) (k : page) : result V :=
  match get d k with Some v => Ok v | None => Raise KeyError end.

(** [{k: f(k) for k in ks}] *)
Definition comprehension {V} (f : page -> V) (ks : list page) : t V :=
  fold_left (fun d k => set d k (f k)) ks [].

End Dict.

Definition corpus_t := Dict.t (list page).
Definition dist := Dict.t Q.

(** ** [transition_model] *)

Definition transition_model (corpus : corpus_t) (page : page)
    (damping_factor : Q) : result dist :=
  let prob_dist := Dict.comprehension (fun _ => 0) (Dict.keys corpus) in
  let num_pages := len corpus in
  links <- Dict.getitem corpus page ;;
  let num_links := len links in
  if (List.length links =? 0)%nat then
    for_each
      (fun prob_dist page_name =>
         u <- pydiv 1 num_pages ;;
         Ok (Dict.set prob_dist page_name u))
      (Dict.keys prob_dist) prob_dist
  else
    random_prob <- pydiv (1 - damping_factor) num_pages ;;
    link_prob <- pydiv damping_factor num_links ;;
    for_each
      (fun prob_dist page_name =>
         v <- Dict.getitem prob_dist page_name ;;
         let prob_dist := Dict.set prob_dist page_name (v + random_prob) in
         if mem page_name links then
           v' <- Dict.getitem prob_dist page_name ;;
           Ok (Dict.set prob_dist page_name (v' + link_prob))
         else Ok prob_dist)
      (Dict.keys prob_dist) prob_dist.

(** ** The random source

    [random.random()] draws a number of [[0,1)]; the source is the stream of
    the draws still to come.  [random.choice(seq)] raises [IndexError] on an
    empty sequence and otherwise returns the element at an index below
    [len(seq)]; CPython takes the index from random bits, here it is
    [floor(random() * len(seq))], so for a given source the element may
    differ from CPython's, and nothing below depends on which one it is.
    [random.choices(population, weights, k=1).pop()] follows
    CPython: cumulative weights, [ValueError] unless their total is
    positive, then [bisect_right] of [random() * total] over the cumulative
    weights, bounded by [hi = len(population) - 1]. *)

Definition rng := nat -> Q.

Definition random (r : rng) : Q * rng := (r O, fun i => r (S i)).

Definition random_choice {A} (seq : list A) (r : rng) : result (A * rng) :=
  match seq with
  | [] => Raise IndexError
  | _ =>
      let (u, r') := random r in
      match nth_error seq (Z.to_nat (Qfloor (u * len seq))) with
      | Some x => Ok (x, r')
      | None => Raise IndexError
      end
  end.

(** [itertools.accumulate(weights)] *)
Fixpoint accumulate_from (acc : Q) (ws : list Q) : list Q :=
  match ws with
  | [] => []
  | w :: ws' => (acc + w) :: accumulate_from (acc + w) ws'
  end.

Definition accumulate (ws : list Q) : list Q := accumulate_from 0 ws.

(** [bisect.bisect_right(a, x, lo, hi)]: the binary search as written in the
    library; the interval shrinks at every step, so [hi - lo] steps are
    enough. *)
Fixpoint bisect_loop (steps : nat) (a : list Q) (x : Q) (lo hi : nat) : nat :=
  match steps with
  | O => lo
  | S steps' =>
      if (lo <? hi)%nat then
        let mid := ((lo + hi) / 2)%nat in
        if Qlt_le_dec x (nth mid a 0) then bisect_loop steps' a x lo mid
        else bisect_loop steps' a x (mid + 1)%nat hi
      else lo
  end.

Definition bisect_right (a : list Q) (x : Q) (lo hi : nat) : nat :=
  bisect_loop (hi - lo) a x lo hi.

Definition random_choices_pop {A} (population : list A) (weights : list Q)
    (r : rng) : result (A * rng) :=
  let n := List.length population in
  let cum_weights := accumulate weights in
  if negb (List.length cum_weights =? n)%nat then Raise ValueError else
  match cum_weights with
  | [] => Raise IndexError
  | _ =>
      let total := last cum_weights 0 in
      if Qle_bool total 0 then Raise ValueError else
      let hi := (n - 1)%nat in
      let (u, r') := random r in
      match nth_error population (bisect_right cum_weights (u * total) 0 hi) with
      | Some x => Ok (x, r')
      | None => Raise IndexError
      end
  end.

(** ** [sample_pagerank] *)

(** One pass of [for i in range(n-1)]: the state is the random source, the
    current page and the visit counters. *)
Definition sample_step (corpus : corpus_t) (damping_factor : Q)
    (st : rng * page * dist) : result (rng * page * dist) :=
  let '(r, next_page, page_rank) := st in
  model <- transition_model corpus next_page damping_factor ;;
  c <- random_choices_pop (Dict.keys model) (Dict.values model) r ;;
  let (next_page, r) := c : page * rng in
  if Dict.has page_rank next_page then
    v <- Dict.getitem page_rank next_page ;;
    Ok (r, next_page, Dict.set page_rank next_page (v + 1))
  else
    Ok (r, next_page, Dict.set page_rank next_page 1).

Fixpoint sample_loop (corpus : corpus_t) (damping_factor : Q) (count : nat)
    (st : rng * page * dist) : result (rng * page * dist) :=
  match count with
  | O => Ok st
  | S count' =>
      st' <- sample_step corpus damping_factor st ;;
      sample_loop corpus damping_factor count' st'
  end.

Definition sample_pagerank (r : rng) (corpus : corpus_t) (damping_factor : Q)
    (n : Z) : result dist :=
  let page_rank : dist := [] in
  c <- random_choice (Dict.keys corpus) r ;;
  let (next_page, r) := c : page * rng in
  st <- sample_loop corpus damping_factor (Z.to_nat (n - 1))
          (r, next_page, page_rank) ;;
  let '(_, _, page_rank) := st in
  for_each
    (fun page_rank page =>
       v <- Dict.getitem page_rank page ;;
       q <- pydiv v (inject_Z n) ;;
       Ok (Dict.set page_rank page q))
    (Dict.keys page_rank) page_rank.

(** ** [iterate_pagerank] *)

(** The variables of the [while] loop.  [new_rank] starts with [None] at
    every page and holds numbers after the first sweep. *)
Record iter_state : Type := {
  iteration : nat;
  page_rank : dist;
  new_rank : Dict.t (option Q);
  max_change : Q
}.

(** A number is expected where [None] may be stored. *)
Definition number (v : option Q) : result Q :=
  match v with Some q => Ok q | None => Raise TypeError end.

(** Body of [for other_page in corpus]. *)
Definition choice_step (corpus : corpus_t) (page_rank : dist) (init_prob : Q)
    (page_name : page) (choice_prob : Q) (other_page : page) : result Q :=
  links <- Dict.getitem corpus other_page ;;
  if (List.length links =? 0)%nat then
    r <- Dict.getitem page_rank other_page ;;
    Ok (choice_prob + r * init_prob)
  else if mem page_name links then
    r <- Dict.getitem page_rank other_page ;;
    q <- pydiv r (len links) ;;
    Ok (choice_prob + q)
  else Ok choice_prob.

(** Body of [for page_name in corpus]: the new rank of one page. *)
Definition rank_step (corpus : corpus_t) (page_rank : dist)
    (init_prob random_prob damping_factor : Q)
    (new_rank : Dict.t (option Q)) (page_name : page)
  : result (Dict.t (option Q)) :=
  choice_prob <- for_each (choice_step corpus page_rank init_prob page_name)
                   (Dict.keys corpus) 0 ;;
  let rank := random_prob + damping_factor * choice_prob in
  Ok (Dict.set new_rank page_name (Some rank)).

(** Body of the second [for page_name in corpus]: the largest change. *)
Definition change_step (page_rank new_rank : dist) (max_change : Q)
    (page_name : page) : result Q :=
  a <- Dict.getitem page_rank page_name ;;
  b <- Dict.getitem new_rank page_name ;;
  let change := Qabs (a - b) in
  if Qgt_bool change max_change then Ok change else Ok max_change.

(** One pass of the [while] body.  The comprehension over
    [new_rank.items()] keeps the keys, which a dict never repeats, so it is
    a map over the items; [new_rank.copy()] is a fresh dict with the same
    items. *)
Definition iterate_body (corpus : corpus_t)
    (init_prob random_prob damping_factor : Q) (st : iter_state)
  : result iter_state :=
  let iteration := S (iteration st) in
  let max_change := 0 in
  new_rank <- for_each
                (rank_step corpus (page_rank st) init_prob random_prob
                   damping_factor)
                (Dict.keys corpus) (new_rank st) ;;
  ranks <- map_result number (Dict.values new_rank) ;;
  let norm_factor := pysum ranks in
  new_rank <- map_result
                (fun item : page * option Q =>
                   rank <- number (snd item) ;;
                   q <- pydiv rank norm_factor ;;
                   Ok (fst item, q))
                new_rank ;;
  max_change <- for_each (change_step (page_rank st) new_rank)
                  (Dict.keys corpus) max_change ;;
  Ok {| iteration := iteration;
        page_rank := new_rank;
        new_rank := map (fun item => (fst item, Some (snd item))) new_rank;
        max_change := max_change |}.

(** [while max_change > 0.001: ...]; [None] when the fuel is used up while
    the condition still holds. *)
Fixpoint iterate_loop (fuel : nat) (corpus : corpus_t)
    (init_prob random_prob damping_factor : Q) (st : iter_state)
  : option (result iter_state) :=
  if Qgt_bool (max_change st) (1 # 1000) then
    match fuel with
    | O => None
    | S fuel' =>
        match iterate_body corpus init_prob random_prob damping_factor st with
        | Ok st' =>
            iterate_loop fuel' corpus init_prob random_prob damping_factor st'
        | Raise e => Some (Raise e)
        end
    end
  else Some (Ok st).

(** The state on entry to the loop. *)
Definition iterate_init (corpus : corpus_t) (init_prob : Q) : iter_state :=
  {| iteration := O;
     page_rank := Dict.comprehension (fun _ => init_prob) (Dict.keys corpus);
     new_rank := Dict.comprehension (fun _ => None) (Dict.keys corpus);
     max_change := init_prob |}.

(** The whole function, returning the final loop state; the Python function
    returns its [page_rank]. *)
Definition iterate_run (fuel : nat) (corpus : corpus_t) (damping_factor : Q)
  : option (result iter_state) :=
  let num_pages := len corpus in
  match pydiv (1 - damping_factor) num_pages with
  | Raise e => Some (Raise e)
  | Ok random_prob =>
      match pydiv 1 num_pages with
      | Raise e => Some (Raise e)
      | Ok init_prob =>
          iterate_loop fuel corpus init_prob random_prob damping_factor
            (iterate_init corpus init_prob)
      end
  end.

Definition iterate_pagerank (fuel : nat) (corpus : corpus_t)
    (damping_factor : Q) : option (result dist) :=
  match iterate_run fuel corpus damping_factor with
  | Some (Ok st) => Some (Ok (page_rank st))
  | Some (Raise e) => Some (Raise e)
  | None => None
  end.

(** ** [crawl]

    The directory is given by what the function reads from it: the name and
    the contents of every file, in the order of [os.listdir] (a listing
    names no file twice).  [re.findall] with the pattern of the source is
    the parameter [findall], from the contents of a file to the targets of
    its links.  A [set] of links is a duplicate-free list. *)

(** [s.endswith(suffix)] *)
Definition endswith (s suffix : string) : bool :=
  String.eqb
    (substring (String.length s - String.length suffix) (String.length suffix) s)
    suffix.

(** Body of the first loop: [pages[filename] = set(links) - {filename}] for
    an HTML file. *)
Definition crawl_read (findall : string -> list page) (pages : corpus_t)
    (entry : string * string) : corpus_t :=
  let (filename, contents) := entry in
  if negb (endswith filename ".html") then pages
  else
    let links := findall contents in
    Dict.set pages filename (remove string_dec filename (nodup string_dec links)).

(** Body of the second loop: only links to pages of the corpus are kept. *)
Definition crawl_filter (pages : corpus_t) (filename : page) : result corpus_t :=
  links <- Dict.getitem pages filename ;;
  Ok (Dict.set pages filename (filter (fun link => Dict.has pages link) links)).

Definition crawl (findall : string -> list page)
    (directory : list (string * string)) : result corpus_t :=
  let pages := fold_left (crawl_read findall) directory [] in
  for_each crawl_filter (Dict.keys pages) pages.

(** ** [iterate_pagerank] on binary64 floats

    The same statements with the numbers as Python has them: IEEE 754
    binary64 floats, every operation rounded to nearest.  An [int] that
    meets a float is converted exactly ([len], the initial [0] of
    [choice_prob] and [max_change]).  The built-in [sum] is a parameter:
    [sum_plain] adds from left to right, [sum_compensated] is the
    compensated summation of CPython 3.12 and later. *)

Module Binary64.

(** [len(x)] where a float is expected. *)
Definition len {A} (l : list A) : float :=
  PrimFloat.of_uint63 (Uint63.of_Z (Z.of_nat (List.length l))).

(** [a / b] *)
Definition pydiv (a b : float) : result float :=
  if PrimFloat.eqb b 0 then Raise ZeroDivisionError else Ok (PrimFloat.div a b).

(** [a > b] *)
Definition gt (a b : float) : bool := PrimFloat.ltb b a.

Definition sum_plain (xs : list float) : float := fold_left PrimFloat.add xs 0%float.

Definition cs_add (total : float * float) (x : float) : float * float :=
  let (hi, lo) := total in
  let t := PrimFloat.add hi x in
  if PrimFloat.leb (PrimFloat.abs x) (PrimFloat.abs hi)
  then (t, PrimFloat.add lo (PrimFloat.add (PrimFloat.sub hi t) x))
  else (t, PrimFloat.add lo (PrimFloat.add (PrimFloat.sub x t) hi)).

Definition sum_compensated (xs : list float) : float :=
  let (hi, lo) := fold_left cs_add xs (0%float, 0%float) in
  if negb (PrimFloat.eqb lo 0) && PrimFloat.is_finite lo
  then PrimFloat.add hi lo
  else hi.

Record state : Type := {
  iteration : nat;
  page_rank : Dict.t float;
  new_rank : Dict.t (option float);
  max_change : float
}.

Definition number (v : option float) : result float :=
  match v with Some q => Ok q | None => Raise TypeError end.

Definition choice_step (corpus : corpus_t) (page_rank : Dict.t float)
    (init_prob : float) (page_name : page) (choice_prob : float)
    (other_page : page) : result float :=
  links <- Dict.getitem corpus other_page ;;
  if (List.length links =? 0)%nat then
    r <- Dict.getitem page_rank other_page ;;
    Ok (PrimFloat.add choice_prob (PrimFloat.mul r init_prob))
  else if mem page_name links then
    r <- Dict.getitem page_rank other_page ;;
    q <- pydiv r (len links) ;;
    Ok (PrimFloat.add choice_prob q)
  else Ok choice_prob.

Definition rank_step (corpus : corpus_t) (page_rank : Dict.t float)
    (init_prob random_prob damping_factor : float)
    (new_rank : Dict.t (option float)) (page_name : page)
  : result (Dict.t (option float)) :=
  choice_prob <- for_each (choice_step corpus page_rank init_prob page_name)
                   (Dict.keys corpus) 0%float ;;
  let rank :=
    PrimFloat.add random_prob (PrimFloat.mul damping_factor choice_prob) in
  Ok (Dict.set new_rank page_name (Some rank)).

Definition change_step (page_rank new_rank : Dict.t float) (max_change : float)
    (page_name : page) : result float :=
  a <- Dict.getitem page_rank page_name ;;
  b <- Dict.getitem new_rank page_name ;;
  let change := PrimFloat.abs (PrimFloat.sub a b) in
  if gt change max_change then Ok change else Ok max_change.

Definition iterate_body (sum : list float -> float) (corpus : corpus_t)
    (init_prob random_prob damping_factor : float) (st : state)
  : result state :=
  let iteration := S (iteration st) in
  let max_change := 0%float in
  new_rank <- for_each
                (rank_step corpus (page_rank st) init_prob random_prob
                   damping_factor)
                (Dict.keys corpus) (new_rank st) ;;
  ranks <- map_result number (Dict.values new_rank) ;;
  let norm_factor := sum ranks in
  new_rank <- map_result
                (fun item : page * option float =>
                   rank <- number (snd item) ;;
                   q <- pydiv rank norm_factor ;;
                   Ok (fst item, q))
                new_rank ;;
  max_change <- for_each (change_step (page_rank st) new_rank)
                  (Dict.keys corpus) max_change ;;
  Ok {| iteration := iteration;
        page_rank := new_rank;
        new_rank := map (fun item => (fst item, Some (snd item))) new_rank;
        max_change := max_change |}.

(** [while max_change > 0.001]; the literal is the float nearest to 0.001. *)
Fixpoint iterate_loop (sum : list float -> float) (fuel : nat)
    (corpus : corpus_t) (init_prob random_prob damping_factor : float)
    (st : state) : option (result state) :=
  if gt (max_change st) 0x1.0624dd2f1a9fcp-10%float then
    match fuel with
    | O => None
    | S fuel' =>
        match iterate_body sum corpus init_prob random_prob damping_factor st
        with
        | Ok st' =>
            iterate_loop sum fuel' corpus init_prob random_prob damping_factor
              st'
        | Raise e => Some (Raise e)
        end
    end
  else Some (Ok st).

Definition iterate_init (corpus : corpus_t) (init_prob : float) : state :=
  {| iteration := O;
     page_rank := Dict.comprehension (fun _ => init_prob) (Dict.keys corpus);
     new_rank := Dict.comprehension (fun _ => None) (Dict.keys corpus);
     max_change := init_prob |}.

Definition iterate_run (sum : list float -> float) (fuel : nat)
    (corpus : corpus_t) (damping_factor : float) : option (result state) :=
  let num_pages := len corpus in
  match pydiv (PrimFloat.sub 1 damping_factor) num_pages with
  | Raise e => Some (Raise e)
  | Ok random_prob =>
      match pydiv 1 num_pages with
      | Raise e => Some (Raise e)
      | Ok init_prob =>
          iterate_loop sum fuel corpus init_prob random_prob damping_factor
            (iterate_init corpus init_prob)
      end
  end.

Definition iterate_pagerank (sum : list float -> float) (fuel : nat)
    (corpus : corpus_t) (damping_factor : float)
  : option (result (Dict.t float)) :=
  match iterate_run sum fuel corpus damping_factor with
  | Some (Ok st) => Some (Ok (page_rank st))
  | Some (Raise e) => Some (Raise e)
  | None => None
  end.

(** The state [st] with another value of the counter [iteration]. *)
Definition set_iteration (i : nat) (st : state) : state :=
  {| iteration := i;
     page_rank := page_rank st;
     new_rank := new_rank st;
     max_change := max_change st |}.

(** The state after [n] sweeps from [st] ([st] itself if one raises). *)
Fixpoint sweeps (sum : list float -> float) (n : nat) (corpus : corpus_t)
    (init_prob random_prob damping_factor : float) (st : state) : state :=
  match n with
  | O => st
  | S n' =>
      match iterate_body sum corpus init_prob random_prob damping_factor st with
      | Ok st' =>
          sweeps sum n' corpus init_prob random_prob damping_factor st'
      | Raise _ => st
      end
  end.

End Binary64.

(** ** Well-formed inputs *)

Fixpoint nodupb (l : list page) : bool :=
  match l with
  | [] => true
  | x :: l' => negb (mem x l') && nodupb l'
  end.

(** The Graph invariants: no page is listed twice, every link set is a set
    and every link points into the corpus. *)
Definition wf_corpus (corpus : corpus_t) : bool :=
  nodupb (Dict.keys corpus)
  && forallb (fun item : page * list page =>
                nodupb (snd item)
                && forallb (fun l => mem l (Dict.keys corpus)) (snd item))
       corpus.

(** Every draw of the source lies in [[0,1)]. *)
Definition valid_rng (r : rng) : Prop := forall i, 0 <= r i /\ r i < 1.

(** The damping factor lies in [(0,1)]. *)
Definition valid_damping (d : Q) : Prop := 0 < d /\ d < 1.

(** ** Sample data *)

Definition two_cycle : corpus_t :=
  [("A"%string, ["B"%string]); ("B"%string, ["A"%string])].

Definition dangling3 : corpus_t :=
  [("A"%string, ["B"%string]); ("B"%string, []); ("C"%string, ["A"%string])].

Definition DAMPING : Q := 85 # 100.

Definition SAMPLES : Z := 10000.

Definition zeros : rng := fun _ => 0.

(** A hub [A] that links to [B], [C] and [D], each of which links back. *)
Definition star4 : corpus_t :=
  [("A"%string, ["B"%string; "C"%string; "D"%string]);
   ("B"%string, ["A"%string]);
   ("C"%string, ["A"%string]);
   ("D"%string, ["A"%string])].

(** The float written [0.9999999999999999], the largest below 1. *)
Definition near_one : float := 0x1.fffffffffffffp-1%float.

(** The state of the binary64 loop on [star4] with damping [near_one] after
    [n] sweeps. *)
Definition star4_state (sum : list float -> float) (n : nat) : Binary64.state :=
  Binary64.sweeps sum n star4
    (PrimFloat.div 1 (Binary64.len star4))
    (PrimFloat.div (PrimFloat.sub 1 near_one) (Binary64.len star4))
    near_one
    (Binary64.iterate_init star4 (PrimFloat.div 1 (Binary64.len star4))).

(** A corpus of [n] pages without links, named [0], [1], ... *)
Definition page_number (i : nat) : page :=
  NilEmpty.string_of_uint (Nat.to_uint i).

Definition numbered_corpus (n : nat) : corpus_t :=
  map (fun i => (page_number i, [])) (seq 0 n).

(** ** Notions used in the statements *)

(** The dict with keys [ks], in that order, and value [v k] at [k]. *)
Definition tabulate {V} (v : page -> V) (ks : list page) : Dict.t V :=
  map (fun k => (k, v k)) ks.

(** The value of a computation that does not raise. *)
Definition value {A} (default : A) (m : result A) : A :=
  match m with Ok a => a | Raise _ => default end.

(** The sum of [f k] over the pages [k] of [ks]. *)
Definition qsum (f : page -> Q) (ks : list page) : Q := pysum (map f ks).

(** The outgoing links of a page (none for a page outside the corpus). *)
Definition links_of (corpus : corpus_t) (q : page) : list page :=
  match Dict.get corpus q with Some ls => ls | None => [] end.

(** The rank a dict gives to a page (0 when it has none). *)
Definition rank_of (d : dist) (p : page) : Q :=
  match Dict.get d p with Some v => v | None => 0 end.

(** The value [transition_model] stores at page [p], for a current page
    with link set [links]. *)
Definition transition_value (corpus : corpus_t) (links : list page)
    (damping_factor : Q) (p : page) : Q :=
  if (List.length links =? 0)%nat then 1 / len corpus
  else if mem p links
       then 0 + (1 - damping_factor) / len corpus + damping_factor / len links
       else 0 + (1 - damping_factor) / len corpus.

(** What one recorded visit does to the counters of [sample_pagerank]. *)
Definition record_visit (page_rank : dist) (p : page) : dist :=
  match Dict.get page_rank p with
  | Some v => Dict.set page_rank p (v + 1)
  | None => Dict.set page_rank p 1
  end.

(** The counters after the visits [visits], in order, from no counter. *)
Definition tally (visits : list page) : dist := fold_left record_visit visits [].

(** The last loop of [sample_pagerank]: every counter divided by [n]. *)
Definition normalize (n : Z) (page_rank : dist) : dist :=
  map (fun kv => (fst kv, snd kv / inject_Z n)) page_rank.

(** The pages drawn by [random.choices] in the first [count] passes of the
    loop of [sample_pagerank], in order. *)
Fixpoint sample_visits (corpus : corpus_t) (damping_factor : Q) (count : nat)
    (st : rng * page * dist) : list page :=
  match count with
  | O => []
  | S count' =>
      match sample_step corpus damping_factor st with
      | Ok st' => snd (fst st') :: sample_visits corpus damping_factor count' st'
      | Raise _ => []
      end
  end.

(** The pages drawn and recorded by a call of [sample_pagerank]. *)
Definition drawn (r : rng) (corpus : corpus_t) (damping_factor : Q) (n : Z)
  : list page :=
  match random_choice (Dict.keys corpus) r with
  | Ok c => sample_visits corpus damping_factor (Z.to_nat (n - 1))
              (snd c, fst c, [])
  | Raise _ => []
  end.

(** How many times [p] occurs in [visits]. *)
Definition visits_of (visits : list page) (p : page) : nat :=
  count_occ string_dec visits p.

(** The value left in [choice_prob] by the inner loop of [iterate_pagerank]
    for the page [p]. *)
Definition choice_of (corpus : corpus_t) (page_rank : dist) (init_prob : Q)
    (p : page) : Q :=
  value 0 (for_each (choice_step corpus page_rank init_prob p)
             (Dict.keys corpus) 0).

(** The value of [rank] stored in [new_rank] for the page [p]. *)
Definition sweep_rank (corpus : corpus_t) (page_rank : dist)
    (init_prob random_prob damping_factor : Q) (p : page) : Q :=
  random_prob + damping_factor * choice_of corpus page_rank init_prob p.

(** The value of [norm_factor]. *)
Definition norm_of (corpus : corpus_t) (page_rank : dist)
    (init_prob random_prob damping_factor : Q) : Q :=
  qsum (sweep_rank corpus page_rank init_prob random_prob damping_factor)
    (Dict.keys corpus).

(** The renormalised rank of the page [p]. *)
Definition next_rank (corpus : corpus_t) (page_rank : dist)
    (init_prob random_prob damping_factor : Q) (p : page) : Q :=
  sweep_rank corpus page_rank init_prob random_prob damping_factor p
  / norm_of corpus page_rank init_prob random_prob damping_factor.

(** The value left in [max_change] by the last loop of a sweep. *)
Definition change_of (corpus : corpus_t) (page_rank new_rank : dist) : Q :=
  value 0 (for_each (change_step page_rank new_rank) (Dict.keys corpus) 0).

(** The state after a sweep that does not raise. *)
Definition next_state (corpus : corpus_t)
    (init_prob random_prob damping_factor : Q) (st : iter_state) : iter_state :=
  let new :=
    tabulate (next_rank corpus (page_rank st) init_prob random_prob
                damping_factor) (Dict.keys corpus) in
  {| iteration := S (iteration st);
     page_rank := new;
     new_rank := map (fun item => (fst item, Some (snd item))) new;
     max_change := change_of corpus (page_rank st) new |}.

(** The share of the rank of [q] that goes to [p]: [init_prob] to every page
    when [q] has no link, [1/outdegree] to each page [q] links to. *)
Definition weight (corpus : corpus_t) (init_prob : Q) (q p : page) : Q :=
  let links := links_of corpus q in
  if (List.length links =? 0)%nat then init_prob
  else if mem p links then 1 / len links else 0.

(** The rank formula of the specification: [(1-d)/N] plus [d] times the sum,
    over the pages [q] that link to [p], of [rank(q) / outdegree(q)], a page
    [q] of outdegree 0 contributing [rank(q) * (1/N)] to every page. *)
Definition spec_new_rank (corpus : corpus_t) (rank : page -> Q) (d : Q)
    (p : page) : Q :=
  let N := len corpus in
  let linking :=
    filter (fun q => mem p (links_of corpus q)) (Dict.keys corpus) in
  let dangling :=
    filter (fun q => (List.length (links_of corpus q) =? 0)%nat)
      (Dict.keys corpus) in
  (1 - d) / N
  + d * (qsum (fun q => rank q / len (links_of corpus q)) linking
         + qsum (fun q => rank q * (1 / N)) dangling).

(** The sum over the corpus of the changes between two rank dicts. *)
Definition total_change (corpus : corpus_t) (a b : dist) : Q :=
  qsum (fun p => Qabs (rank_of a p - rank_of b p)) (Dict.keys corpus).

(** [d ^ k] *)
Fixpoint decay (d : Q) (k : nat) : Q :=
  match k with
  | O => 1
  | S k' => d * decay d k'
  end.

(** The rank dicts assigned to [page_rank] by the first passes of the
    [while] loop, at most [fuel] of them. *)
Fixpoint iterates (fuel : nat) (corpus : corpus_t)
    (init_prob random_prob damping_factor : Q) (st : iter_state)
  : list dist :=
  if Qgt_bool (max_change st) (1 # 1000) then
    match fuel with
    | O => []
    | S fuel' =>
        match iterate_body corpus init_prob random_prob damping_factor st with
        | Ok st' =>
            page_rank st'
            :: iterates fuel' corpus init_prob random_prob damping_factor st'
        | Raise _ => []
        end
    end
  else [].

(** The loop invariant of [iterate_pagerank]: both dicts have the pages of
    the corpus as keys, in order, and the ranks sum to 1. *)
Definition iter_inv (corpus : corpus_t) (st : iter_state) : Prop :=
  Dict.keys (page_rank st) = Dict.keys corpus
  /\ Dict.keys (new_rank st) = Dict.keys corpus
  /\ pysum (Dict.values (page_rank st)) == 1.

(** The change the next sweep will make, summed over the corpus. *)
Definition pending (corpus : corpus_t) (init_prob random_prob damping_factor : Q)
    (st : iter_state) : Q :=
  total_change corpus (page_rank st)
    (page_rank (next_state corpus init_prob random_prob damping_factor st)).

(** The rank dicts assigned to [page_rank] by a call of
    [iterate_pagerank], at most [fuel] of them. *)
Definition iterate_trace (fuel : nat) (corpus : corpus_t) (damping_factor : Q)
  : list dist :=
  let num_pages := len corpus in
  match pydiv (1 - damping_factor) num_pages with
  | Raise _ => []
  | Ok random_prob =>
      match pydiv 1 num_pages with
      | Raise _ => []
      | Ok init_prob =>
          iterates fuel corpus init_prob random_prob damping_factor
            (iterate_init corpus init_prob)
      end
  end.

(** The HTML files of a directory listing. *)
Definition html_files (directory : list (string * string))
  : list (string * string) :=
  filter (fun entry => endswith (fst entry) ".html") directory.

(** A directory and a link extractor for the examples: the contents of a
    file are the name of the one file it links to, found twice. *)
Definition sample_directory : list (string * string) :=
  [("a.html"%string, "b.html"%string);
   ("notes.txt"%string, "a.html"%string);
   ("b.html"%string, "b.html"%string);
   ("c.html"%string, "missing.html"%string)].

Definition sample_findall (contents : string) : list page :=
  [contents; contents].

(** [next] is what a sweep makes of [prev]: there are ranks [unnorm], one
    per page and given by the rank formula on [prev], and [next] holds
    every one of them divided by their sum. *)
Definition is_sweep (corpus : corpus_t) (d : Q) (prev next : dist) : Prop :=
  exists unnorm : page -> Q,
    (forall p, In p (Dict.keys corpus) ->
               unnorm p == spec_new_rank corpus (rank_of prev) d p) /\
    next = tabulate (fun p => unnorm p / qsum unnorm (Dict.keys corpus))
             (Dict.keys corpus).

(** Every element of [x :: l] is related to the next one. *)
Fixpoint chain (R : dist -> dist -> Prop) (x : dist) (l : list dist) : Prop :=
  match l with
  | [] => True
  | y :: l' => R x y /\ chain R y l'
  end.

(** * Theorems *)

(** ** The functions on the sample data *)

Example transition_model_two_cycle :
  transition_model two_cycle "A"%string DAMPING
  = Ok [("A"%string, 15 # 200); ("B"%string, 18500 # 20000)].
Proof. reflexivity. Qed.

Example transition_model_dangling3 :
  transition_model dangling3 "B"%string DAMPING
  = Ok [("A"%string, 1 # 3); ("B"%string, 1 # 3); ("C"%string, 1 # 3)].
Proof. reflexivity. Qed.

Example sample_pagerank_two_cycle :
  sample_pagerank zeros two_cycle DAMPING 2 = Ok [("A"%string, 1 # 2)].
Proof. reflexivity. Qed.

Example sample_pagerank_dangling3 :
  sample_pagerank (fun _ => 9 # 10) dangling3 DAMPING 6
  = Ok [("B"%string, 3 # 6); ("C"%string, 2 # 6)].
Proof. vm_compute. reflexivity. Qed.

Example sample_pagerank_empty_corpus :
  sample_pagerank zeros [] DAMPING 3 = Raise IndexError.
Proof. reflexivity. Qed.

Example iterate_pagerank_two_cycle :
  iterate_pagerank 1 two_cycle DAMPING
  = Some (Ok [("A"%string, 32000000000000 # 64000000000000);
              ("B"%string, 32000000000000 # 64000000000000)]).
Proof. vm_compute. reflexivity. Qed.

Example iterate_pagerank_out_of_fuel :
  iterate_pagerank 0 two_cycle DAMPING = None.
Proof. reflexivity. Qed.

Example iterate_pagerank_empty_corpus :
  iterate_pagerank 5 [] DAMPING = Some (Raise ZeroDivisionError).
Proof. reflexivity. Qed.

(** ** Pages, sets and dicts *)

Lemma mem_In p s : mem p s = true <-> In p s.
Proof.
  unfold mem. rewrite existsb_exists. split.
  - intros (x & Hx & He). apply String.eqb_eq in He. now subst.
  - intros H. exists p. split; [assumption | apply String.eqb_refl].
Qed.

Lemma mem_false p s : mem p s = false <-> ~ In p s.
Proof.
  rewrite <- mem_In. destruct (mem p s); split; congruence.
Qed.

Lemma nodupb_NoDup l : nodupb l = true <-> NoDup l.
Proof.
  induction l as [|x l IH]; simpl.
  - split; [constructor | reflexivity].
  - rewrite andb_true_iff, negb_true_iff, mem_false, IH. split.
    + intros [H1 H2]. now constructor.
    + intros H. inversion H; subst. now split.
Qed.

Lemma keys_app {V} (a b : Dict.t V) :
  Dict.keys (a ++ b) = Dict.keys a ++ Dict.keys b.
Proof. apply map_app. Qed.

Lemma keys_tabulate {V} (v : page -> V) ks : Dict.keys (tabulate v ks) = ks.
Proof.
  unfold Dict.keys, tabulate. rewrite map_map. simpl. apply map_id.
Qed.

Lemma values_tabulate {V} (v : page -> V) ks :
  Dict.values (tabulate v ks) = map v ks.
Proof.
  unfold Dict.values, tabulate. rewrite map_map. reflexivity.
Qed.

Lemma get_None {V} (d : Dict.t V) k : ~ In k (Dict.keys d) -> Dict.get d k = None.
Proof.
  induction d as [|[k' v] d IH]; simpl; intros H; [reflexivity|].
  destruct (String.eqb_spec k k') as [->|Hne].
  - exfalso. apply H. now left.
  - apply IH. intros Hin. apply H. now right.
Qed.

Lemma get_In {V} (d : Dict.t V) k v : Dict.get d k = Some v -> In (k, v) d.
Proof.
  induction d as [|[k' v'] d IH]; simpl; [discriminate|].
  destruct (String.eqb_spec k k') as [->|Hne].
  - intros [= ->]. now left.
  - intros H. right. now apply IH.
Qed.

Lemma get_In_keys {V} (d : Dict.t V) k v :
  Dict.get d k = Some v -> In k (Dict.keys d).
Proof.
  intros H. apply get_In in H. unfold Dict.keys.
  change k with (fst (k, v)). now apply in_map.
Qed.

Lemma get_app_r {V} (a b : Dict.t V) k :
  ~ In k (Dict.keys a) -> Dict.get (a ++ b) k = Dict.get b k.
Proof.
  induction a as [|[k' v] a IH]; simpl; intros H; [reflexivity|].
  destruct (String.eqb_spec k k') as [->|Hne].
  - exfalso. apply H. now left.
  - apply IH. intros Hin. apply H. now right.
Qed.

Lemma set_app_r {V} (a b : Dict.t V) k v :
  ~ In k (Dict.keys a) -> Dict.set (a ++ b) k v = a ++ Dict.set b k v.
Proof.
  induction a as [|[k' v'] a IH]; simpl; intros H; [reflexivity|].
  destruct (String.eqb_spec k k') as [->|Hne].
  - exfalso. apply H. now left.
  - f_equal. apply IH. intros Hin. apply H. now right.
Qed.

Lemma set_fresh {V} (d : Dict.t V) k v :
  ~ In k (Dict.keys d) -> Dict.set d k v = d ++ [(k, v)].
Proof.
  intros H. rewrite <- (app_nil_r d) at 1. now rewrite set_app_r.
Qed.

Lemma get_set_same {V} (d : Dict.t V) k v : Dict.get (Dict.set d k v) k = Some v.
Proof.
  induction d as [|[k' v'] d IH]; simpl.
  - now rewrite String.eqb_refl.
  - destruct (String.eqb_spec k k') as [->|Hne]; simpl.
    + now rewrite String.eqb_refl.
    + destruct (String.eqb_spec k k'); [contradiction | exact IH].
Qed.

Lemma set_set_same {V} (d : Dict.t V) k v w :
  Dict.set (Dict.set d k v) k w = Dict.set d k w.
Proof.
  induction d as [|[k' v'] d IH]; simpl.
  - now rewrite String.eqb_refl.
  - destruct (String.eqb_spec k k') as [->|Hne]; simpl.
    + now rewrite String.eqb_refl.
    + destruct (String.eqb_spec k k'); [contradiction | now rewrite IH].
Qed.

Lemma get_tabulate {V} (v : page -> V) ks k :
  In k ks -> Dict.get (tabulate v ks) k = Some (v k).
Proof.
  induction ks as [|k' ks IH]; simpl; [contradiction|].
  destruct (String.eqb_spec k k') as [->|Hne]; [reflexivity|].
  intros [->|Hin]; [contradiction | now apply IH].
Qed.

Lemma comprehension_tabulate {V} (f : page -> V) ks :
  NoDup ks -> Dict.comprehension f ks = tabulate f ks.
Proof.
  unfold Dict.comprehension.
  enough (H : forall acc : Dict.t V,
             NoDup (Dict.keys acc ++ ks) ->
             fold_left (fun d k => Dict.set d k (f k)) ks acc
             = acc ++ tabulate f ks).
  { intros Hnd. apply (H []). exact Hnd. }
  induction ks as [|k ks IH]; simpl; intros acc Hnd.
  - now rewrite app_nil_r.
  - assert (Hk : ~ In k (Dict.keys acc)).
    { intros Hin. apply NoDup_remove_2 in Hnd. apply Hnd.
      apply in_or_app. now left. }
    rewrite set_fresh by exact Hk. rewrite IH.
    + now rewrite <- app_assoc.
    + rewrite keys_app. simpl. rewrite <- app_assoc. exact Hnd.
Qed.

(** A loop over the keys of a dict that rewrites the value at each key is a
    map over its items. *)
Lemma for_each_update {V} (f : page -> V -> result V)
    (body : Dict.t V -> page -> result (Dict.t V)) :
  (forall d k v, Dict.get d k = Some v ->
                 body d k = (v' <- f k v ;; Ok (Dict.set d k v'))) ->
  forall suf pre,
    NoDup (Dict.keys (pre ++ suf)) ->
    for_each body (Dict.keys suf) (pre ++ suf)
    = (suf' <- map_result (fun kv => v' <- f (fst kv) (snd kv) ;; Ok (fst kv, v')) suf ;;
       Ok (pre ++ suf')).
Proof.
  intros Hbody. induction suf as [|[k v] suf IH]; intros pre Hnd; simpl.
  - reflexivity.
  - rewrite keys_app in Hnd. simpl in Hnd.
    assert (Hk : ~ In k (Dict.keys pre)).
    { intros Hin. apply NoDup_remove_2 in Hnd. apply Hnd.
      apply in_or_app. now left. }
    rewrite (Hbody _ k v).
    2:{ rewrite get_app_r by exact Hk. simpl. now rewrite String.eqb_refl. }
    destruct (f k v) as [v'|e]; simpl; [|reflexivity].
    rewrite set_app_r by exact Hk. simpl. rewrite String.eqb_refl.
    change (pre ++ (k, v') :: suf) with (pre ++ [(k, v')] ++ suf).
    rewrite app_assoc. rewrite IH.
    + destruct (map_result _ suf) as [suf'|e]; simpl; [|reflexivity].
      now rewrite <- app_assoc.
    + rewrite !keys_app. simpl. rewrite <- app_assoc. simpl.
      exact Hnd.
Qed.

(** ** Numbers *)

Lemma len_nonzero {A} (l : list A) : l <> [] -> ~ len l == 0.
Proof.
  intros Hl. unfold len, Qeq. simpl. destruct l; [contradiction|].
  simpl List.length. lia.
Qed.

Lemma len_pos {A} (l : list A) : l <> [] -> 0 < len l.
Proof.
  intros Hl. unfold len, Qlt. simpl. destruct l; [contradiction|].
  simpl List.length. lia.
Qed.

Lemma len_cons {A} (x : A) l : len (x :: l) == 1 + len l.
Proof.
  unfold len. simpl List.length. rewrite Nat2Z.inj_succ.
  unfold Z.succ. rewrite inject_Z_plus. simpl. ring.
Qed.

Lemma pydiv_ok a b : ~ b == 0 -> pydiv a b = Ok (a / b).
Proof.
  intros Hb. unfold pydiv.
  destruct (Qeq_bool b 0) eqn:E; [|reflexivity].
  apply Qeq_bool_eq in E. contradiction.
Qed.

Lemma map_result_ok {A B} (f : A -> result B) (g : A -> B) xs :
  (forall x, In x xs -> f x = Ok (g x)) -> map_result f xs = Ok (map g xs).
Proof.
  induction xs as [|x xs IH]; simpl; intros H; [reflexivity|].
  rewrite (H x) by now left. simpl.
  rewrite IH by (intros y Hy; apply H; now right). reflexivity.
Qed.

(** A loop that rewrites every value of [tabulate v ks] with a function that
    does not raise produces the tabulated new values. *)
Lemma for_each_tabulate {V} (g : page -> V -> V)
    (body : Dict.t V -> page -> result (Dict.t V)) (v : page -> V) ks :
  (forall d k x, Dict.get d k = Some x ->
                 body d k = Ok (Dict.set d k (g k x))) ->
  NoDup ks ->
  for_each body ks (tabulate v ks) = Ok (tabulate (fun k => g k (v k)) ks).
Proof.
  intros Hbody Hnd.
  pose proof (for_each_update (fun k x => Ok (g k x)) body) as H.
  specialize (H (fun d k x Hx => Hbody d k x Hx) (tabulate v ks) []).
  simpl in H. rewrite keys_tabulate in H. rewrite (H Hnd).
  rewrite (map_result_ok _ (fun kv => (fst kv, g (fst kv) (snd kv)))).
  - simpl. unfold tabulate. now rewrite map_map.
  - reflexivity.
Qed.

(** ** [transition_model] as a table *)

Lemma transition_model_tabulate corpus page d links :
  NoDup (Dict.keys corpus) ->
  Dict.get corpus page = Some links ->
  transition_model corpus page d
  = Ok (tabulate (transition_value corpus links d) (Dict.keys corpus)).
Proof.
  intros Hnd Hget. unfold transition_model, Dict.getitem. rewrite Hget. simpl.
  rewrite comprehension_tabulate by exact Hnd. rewrite keys_tabulate.
  assert (HN : ~ len corpus == 0).
  { apply len_nonzero. intros ->. discriminate. }
  unfold transition_value.
  destruct (List.length links =? 0)%nat eqn:HL.
  - rewrite (for_each_tabulate (fun _ _ => 1 / len corpus)); [reflexivity| |exact Hnd].
    intros d0 k x _. now rewrite pydiv_ok.
  - rewrite pydiv_ok by exact HN.
    assert (HL' : ~ len links == 0).
    { apply len_nonzero. intros ->. discriminate. }
    rewrite pydiv_ok by exact HL'. simpl.
    rewrite (for_each_tabulate
               (fun k x => if mem k links
                           then x + (1 - d) / len corpus + d / len links
                           else x + (1 - d) / len corpus));
      [reflexivity| |exact Hnd].
    intros d0 k x Hx. unfold Dict.getitem. rewrite Hx. simpl.
    destruct (mem k links).
    + rewrite get_set_same. simpl. now rewrite set_set_same.
    + reflexivity.
Qed.

(** ** Sums *)

Lemma fold_left_Qplus l a : fold_left Qplus l a == a + fold_left Qplus l 0.
Proof.
  revert a. induction l as [|x l IH]; intros a; simpl.
  - ring.
  - rewrite IH. rewrite (IH (0 + x)). ring.
Qed.

Lemma pysum_cons x l : pysum (x :: l) == x + pysum l.
Proof.
  unfold pysum. simpl. rewrite fold_left_Qplus. ring.
Qed.

Lemma qsum_nil f : qsum f [] == 0.
Proof. reflexivity. Qed.

Lemma qsum_cons f k ks : qsum f (k :: ks) == f k + qsum f ks.
Proof. unfold qsum. simpl map. apply pysum_cons. Qed.

Lemma qsum_ext f g ks :
  (forall k, In k ks -> f k == g k) -> qsum f ks == qsum g ks.
Proof.
  induction ks as [|k ks IH]; intros H; [reflexivity|].
  rewrite !qsum_cons. rewrite (H k) by now left.
  rewrite IH; [reflexivity|]. intros k' Hk'. apply H. now right.
Qed.

Lemma qsum_const c ks : qsum (fun _ => c) ks == len ks * c.
Proof.
  induction ks as [|k ks IH].
  - unfold len. simpl. rewrite qsum_nil. ring.
  - rewrite qsum_cons, len_cons, IH. ring.
Qed.

Lemma qsum_plus f g ks :
  qsum (fun k => f k + g k) ks == qsum f ks + qsum g ks.
Proof.
  induction ks as [|k ks IH].
  - rewrite !qsum_nil. ring.
  - rewrite !qsum_cons, IH. ring.
Qed.

Lemma qsum_scale c f ks : qsum (fun k => c * f k) ks == c * qsum f ks.
Proof.
  induction ks as [|k ks IH].
  - rewrite !qsum_nil. ring.
  - rewrite !qsum_cons, IH. ring.
Qed.

Lemma qsum_zero ks : qsum (fun _ => 0) ks == 0.
Proof. rewrite qsum_const. ring. Qed.

Lemma qsum_le f g ks :
  (forall k, In k ks -> f k <= g k) -> qsum f ks <= qsum g ks.
Proof.
  induction ks as [|k ks IH]; intros H.
  - rewrite !qsum_nil. apply Qle_refl.
  - rewrite !qsum_cons. apply Qplus_le_compat.
    + apply H. now left.
    + apply IH. intros k' Hk'. apply H. now right.
Qed.

Lemma qsum_nonneg f ks : (forall k, In k ks -> 0 <= f k) -> 0 <= qsum f ks.
Proof.
  intros H. rewrite <- (qsum_zero ks). now apply qsum_le.
Qed.

Lemma qsum_abs f ks : Qabs (qsum f ks) <= qsum (fun k => Qabs (f k)) ks.
Proof.
  induction ks as [|k ks IH].
  - unfold qsum, pysum. simpl. apply Qle_refl.
  - rewrite !qsum_cons.
    eapply Qle_trans; [apply Qabs_triangle|].
    apply Qplus_le_compat; [apply Qle_refl | exact IH].
Qed.

Lemma qsum_exchange (f : page -> page -> Q) ps qs :
  qsum (fun p => qsum (fun q => f p q) qs) ps
  == qsum (fun q => qsum (fun p => f p q) ps) qs.
Proof.
  induction ps as [|p ps IH].
  - rewrite qsum_nil. symmetry. rewrite (qsum_ext _ (fun _ => 0)).
    + apply qsum_zero.
    + intros q _. apply qsum_nil.
  - rewrite qsum_cons, IH, <- qsum_plus.
    apply qsum_ext. intros q _. now rewrite qsum_cons.
Qed.

(** The pages of [ks] that belong to the set [ls] are as many as [ls] has
    elements, when [ls] is a set of pages of [ks]. *)
Lemma count_members ks ls :
  NoDup ks -> NoDup ls -> incl ls ks ->
  List.length (filter (fun k => mem k ls) ks) = List.length ls.
Proof.
  intros Hks Hls Hincl. apply Nat.le_antisymm.
  - apply NoDup_incl_length; [now apply NoDup_filter|].
    intros k Hk. apply filter_In in Hk. now apply mem_In.
  - apply NoDup_incl_length; [exact Hls|].
    intros k Hk. apply filter_In. split; [now apply Hincl | now apply mem_In].
Qed.

Lemma qsum_filter c (b : page -> bool) ks :
  qsum (fun k => if b k then c else 0) ks == len (filter b ks) * c.
Proof.
  induction ks as [|k ks IH].
  - rewrite qsum_nil. unfold len. simpl. ring.
  - rewrite qsum_cons, IH. simpl filter. destruct (b k).
    + rewrite len_cons. ring.
    + ring.
Qed.

Lemma qsum_members c ks ls :
  NoDup ks -> NoDup ls -> incl ls ks ->
  qsum (fun k => if mem k ls then c else 0) ks == len ls * c.
Proof.
  intros Hks Hls Hincl. rewrite qsum_filter.
  unfold len. now rewrite count_members.
Qed.

(** ** What a well-formed corpus gives *)

Lemma wf_corpus_keys corpus : wf_corpus corpus = true -> NoDup (Dict.keys corpus).
Proof.
  unfold wf_corpus. rewrite andb_true_iff. intros [H _]. now apply nodupb_NoDup.
Qed.

Lemma wf_corpus_links corpus q links :
  wf_corpus corpus = true -> Dict.get corpus q = Some links ->
  NoDup links /\ incl links (Dict.keys corpus).
Proof.
  unfold wf_corpus. rewrite andb_true_iff. intros [_ H] Hget.
  rewrite forallb_forall in H. apply get_In in Hget.
  specialize (H _ Hget). simpl in H. apply andb_true_iff in H as [H1 H2].
  split; [now apply nodupb_NoDup|].
  rewrite forallb_forall in H2. intros l Hl. apply mem_In. now apply H2.
Qed.

Lemma In_keys_get {V} (d : Dict.t V) k :
  In k (Dict.keys d) -> exists v, Dict.get d k = Some v.
Proof.
  induction d as [|[k' v'] d IH]; simpl; [contradiction|].
  destruct (String.eqb_spec k k') as [->|Hne].
  - intros _. now exists v'.
  - intros [Heq|Hin]; [congruence | now apply IH].
Qed.

(** ** The transition model *)

(** C3: for a corpus (a dict, so no page listed twice) and a page of it with
    zero outgoing links, [transition_model] returns without raising a
    distribution over exactly the pages of the corpus in which every page is
    assigned exactly [1 / N], [N] the number of pages. *)
Theorem transition_model_dangling corpus page d :
  nodupb (Dict.keys corpus) = true ->
  Dict.get corpus page = Some [] ->
  exists prob_dist,
    transition_model corpus page d = Ok prob_dist /\
    Dict.keys prob_dist = Dict.keys corpus /\
    (forall p, In p (Dict.keys corpus) ->
               Dict.get prob_dist p = Some (1 / len corpus)) /\
    Forall (fun v => v = 1 / len corpus) (Dict.values prob_dist).
Proof.
  intros Hnd Hget. apply nodupb_NoDup in Hnd.
  exists (tabulate (transition_value corpus [] d) (Dict.keys corpus)).
  split; [now apply transition_model_tabulate|].
  split; [apply keys_tabulate|]. split.
  - intros p Hp. now rewrite get_tabulate.
  - rewrite values_tabulate. apply Forall_forall.
    intros v Hv. apply in_map_iff in Hv as (k & <- & _). reflexivity.
Qed.

Lemma transition_model_dangling_witness :
  nodupb (Dict.keys dangling3) = true /\
  Dict.get dangling3 "B"%string = Some [] /\
  exists prob_dist,
    transition_model dangling3 "B"%string DAMPING = Ok prob_dist /\
    Dict.keys prob_dist = Dict.keys dangling3 /\
    (forall p, In p (Dict.keys dangling3) ->
               Dict.get prob_dist p = Some (1 / len dangling3)) /\
    Forall (fun v => v = 1 / len dangling3) (Dict.values prob_dist).
Proof.
  split; [reflexivity|]. split; [reflexivity|].
  apply (transition_model_dangling dangling3 "B"%string DAMPING); reflexivity.
Defined.

Lemma transition_value_links corpus links d p :
  links <> [] ->
  transition_value corpus links d p
  == (1 - d) / len corpus + (if mem p links then d / len links else 0).
Proof.
  intros Hl. unfold transition_value.
  destruct links as [|l links]; [contradiction|]. simpl Nat.eqb.
  destruct (mem p (l :: links)); ring.
Qed.

(** The values of [transition_model] add up to 1 in exact arithmetic. *)
Lemma transition_value_sum corpus page links d :
  wf_corpus corpus = true ->
  Dict.get corpus page = Some links ->
  qsum (transition_value corpus links d) (Dict.keys corpus) == 1.
Proof.
  intros Hwf Hget.
  pose proof (wf_corpus_keys _ Hwf) as Hnd.
  destruct (wf_corpus_links _ _ _ Hwf Hget) as [Hl Hincl].
  assert (HN : ~ len corpus == 0).
  { apply len_nonzero. intros ->. discriminate. }
  assert (HK : len (Dict.keys corpus) == len corpus).
  { unfold len, Dict.keys. now rewrite length_map. }
  destruct links as [|l links].
  - unfold transition_value. simpl Nat.eqb. cbv iota.
    rewrite qsum_const, HK. now field.
  - rewrite (qsum_ext _ (fun p => (1 - d) / len corpus
                           + (if mem p (l :: links) then d / len (l :: links) else 0))).
    2:{ intros k _. apply transition_value_links. discriminate. }
    rewrite qsum_plus, qsum_const, qsum_members, HK by assumption.
    assert (HL : ~ len (l :: links) == 0) by (apply len_nonzero; discriminate).
    now field.
Qed.

(** C4: for a well-formed corpus and a page of it with [L > 0] outgoing
    links, [transition_model] returns a distribution over the pages of the
    corpus that assigns [(1-d)/N + d/L] to each page linked from the given
    page and [(1-d)/N] to each page not linked from it, and the assigned
    probabilities sum to exactly 1 over the rationals.  (It holds for every
    damping factor, in particular for those of (0,1).) *)
Theorem transition_model_links corpus page d links :
  wf_corpus corpus = true ->
  Dict.get corpus page = Some links ->
  links <> [] ->
  exists prob_dist,
    transition_model corpus page d = Ok prob_dist /\
    Dict.keys prob_dist = Dict.keys corpus /\
    (forall p, In p (Dict.keys corpus) ->
       exists v, Dict.get prob_dist p = Some v /\
         (In p links -> v == (1 - d) / len corpus + d / len links) /\
         (~ In p links -> v == (1 - d) / len corpus)) /\
    pysum (Dict.values prob_dist) == 1.
Proof.
  intros Hwf Hget Hl.
  pose proof (wf_corpus_keys _ Hwf) as Hnd.
  exists (tabulate (transition_value corpus links d) (Dict.keys corpus)).
  split; [now apply transition_model_tabulate|].
  split; [apply keys_tabulate|]. split.
  - intros p Hp. exists (transition_value corpus links d p).
    split; [now apply get_tabulate|].
    rewrite (transition_value_links _ _ _ _ Hl). split; intros Hin.
    + apply mem_In in Hin. rewrite Hin. reflexivity.
    + apply mem_false in Hin. rewrite Hin. ring.
  - rewrite values_tabulate. now apply (transition_value_sum corpus page).
Qed.

Lemma transition_model_links_witness :
  wf_corpus two_cycle = true /\
  Dict.get two_cycle "A"%string = Some ["B"%string] /\
  ["B"%string] <> [] /\
  exists prob_dist,
    transition_model two_cycle "A"%string DAMPING = Ok prob_dist /\
    Dict.keys prob_dist = Dict.keys two_cycle /\
    (forall p, In p (Dict.keys two_cycle) ->
       exists v, Dict.get prob_dist p = Some v /\
         (In p ["B"%string] -> v == (1 - DAMPING) / len two_cycle + DAMPING / len ["B"%string]) /\
         (~ In p ["B"%string] -> v == (1 - DAMPING) / len two_cycle)) /\
    pysum (Dict.values prob_dist) == 1.
Proof.
  split; [reflexivity|]. split; [reflexivity|]. split; [discriminate|].
  apply (transition_model_links two_cycle "A"%string DAMPING ["B"%string]);
    [reflexivity | reflexivity | discriminate].
Defined.

(** ** The random source *)

Lemma random_choice_ok {A} (seq : list A) (r : rng) :
  seq <> [] -> 0 <= r O /\ r O < 1 ->
  exists x, random_choice seq r = Ok (x, snd (random r)) /\ In x seq.
Proof.
  intros Hne [H0 H1]. unfold random_choice.
  destruct seq as [|a seq']; [contradiction|].
  unfold random. cbv beta iota. set (seq := a :: seq') in *.
  assert (Hlen : 0 < len seq) by now apply len_pos.
  assert (Hlo : (0 <= Qfloor (r O * len seq))%Z).
  { change 0%Z with (Qfloor 0). apply Qfloor_resp_le.
    apply Qmult_le_0_compat; [exact H0 | now apply Qlt_le_weak]. }
  assert (Hhi : (Qfloor (r O * len seq) < Z.of_nat (List.length seq))%Z).
  { rewrite Zlt_Qlt. eapply Qle_lt_trans; [apply Qfloor_le|].
    fold (len seq). rewrite <- (Qmult_1_l (len seq)) at 2.
    now apply Qmult_lt_compat_r. }
  destruct (nth_error seq (Z.to_nat (Qfloor (r O * len seq)))) as [x|] eqn:E.
  - exists x. split; [reflexivity|]. now apply nth_error_In in E.
  - exfalso. apply nth_error_None in E. lia.
Qed.

Lemma bisect_loop_bounds steps a x lo hi :
  (lo <= hi)%nat ->
  (lo <= bisect_loop steps a x lo hi <= hi)%nat.
Proof.
  revert lo hi. induction steps as [|steps IH]; intros lo hi Hle;
    cbn [bisect_loop].
  - lia.
  - destruct (lo <? hi)%nat eqn:E; [|lia].
    apply Nat.ltb_lt in E.
    assert (Hmid : (lo <= (lo + hi) / 2 < hi)%nat).
    { split.
      - apply Nat.div_le_lower_bound; lia.
      - apply Nat.Div0.div_lt_upper_bound; lia. }
    destruct (Qlt_le_dec x (nth ((lo + hi) / 2) a 0)).
    + specialize (IH lo ((lo + hi) / 2)%nat). lia.
    + specialize (IH ((lo + hi) / 2 + 1)%nat hi). lia.
Qed.

(** The number of steps given to the binary search does not matter once it
    covers the interval. *)
Lemma bisect_loop_enough a x : forall s1 s2 lo hi,
  (hi - lo <= s1)%nat -> (hi - lo <= s2)%nat ->
  bisect_loop s1 a x lo hi = bisect_loop s2 a x lo hi.
Proof.
  induction s1 as [|s1 IH]; intros s2 lo hi H1 H2.
  - destruct s2; cbn [bisect_loop]; [reflexivity|].
    destruct (lo <? hi)%nat eqn:E; [|reflexivity].
    apply Nat.ltb_lt in E. lia.
  - destruct s2; cbn [bisect_loop].
    + destruct (lo <? hi)%nat eqn:E; [|reflexivity].
      apply Nat.ltb_lt in E. lia.
    + destruct (lo <? hi)%nat eqn:E; [|reflexivity].
      apply Nat.ltb_lt in E.
      assert (Hmid : (lo <= (lo + hi) / 2 < hi)%nat).
      { split.
        - apply Nat.div_le_lower_bound; lia.
        - apply Nat.Div0.div_lt_upper_bound; lia. }
      destruct (Qlt_le_dec x (nth ((lo + hi) / 2) a 0)); apply IH; lia.
Qed.

Lemma length_accumulate_from acc ws :
  List.length (accumulate_from acc ws) = List.length ws.
Proof.
  revert acc. induction ws as [|w ws IH]; intros acc; simpl; [reflexivity|].
  now rewrite IH.
Qed.

Lemma last_accumulate_from acc w ws :
  last (accumulate_from acc (w :: ws)) 0 = fold_left Qplus (w :: ws) acc.
Proof.
  revert acc w. induction ws as [|w' ws IH]; intros acc w.
  - reflexivity.
  - change (accumulate_from acc (w :: w' :: ws))
      with ((acc + w) :: accumulate_from (acc + w) (w' :: ws)).
    change (fold_left Qplus (w :: w' :: ws) acc)
      with (fold_left Qplus (w' :: ws) (acc + w)).
    rewrite <- IH. simpl. reflexivity.
Qed.

Lemma random_choices_pop_ok {A} (population : list A) weights (r : rng) :
  List.length weights = List.length population ->
  0 < pysum weights ->
  exists x, random_choices_pop population weights r = Ok (x, snd (random r))
            /\ In x population.
Proof.
  intros Hlen Hpos. unfold random_choices_pop, accumulate.
  rewrite length_accumulate_from, Hlen, Nat.eqb_refl. simpl negb. cbv iota.
  destruct weights as [|w ws].
  - exfalso. unfold pysum in Hpos. simpl in Hpos. now apply Qlt_irrefl in Hpos.
  - rewrite last_accumulate_from. fold (pysum (w :: ws)).
    change (accumulate_from 0 (w :: ws))
      with ((0 + w) :: accumulate_from (0 + w) ws). cbv iota.
    destruct (Qle_bool (pysum (w :: ws)) 0) eqn:E.
    { apply Qle_bool_iff in E. exfalso. apply (Qlt_irrefl 0).
      eapply Qlt_le_trans; eassumption. }
    unfold random. cbv beta iota.
    match goal with
    | |- context [nth_error population ?i] =>
        pose proof (bisect_loop_bounds
                      (List.length population - 1 - 0)
                      ((0 + w) :: accumulate_from (0 + w) ws)
                      (r O * pysum (w :: ws)) 0
                      (List.length population - 1) (Nat.le_0_l _)) as Hb;
        fold (bisect_right ((0 + w) :: accumulate_from (0 + w) ws)
                (r O * pysum (w :: ws)) 0 (List.length population - 1)) in Hb;
        destruct (nth_error population i) as [x|] eqn:En
    end.
    + exists x. split; [reflexivity|]. now apply nth_error_In in En.
    + exfalso. apply nth_error_None in En. simpl in Hlen. lia.
Qed.

(** ** The sampling loop *)

Lemma qsum_pos f ks :
  ks <> [] -> (forall k, In k ks -> 0 < f k) -> 0 < qsum f ks.
Proof.
  intros Hne H. destruct ks as [|k ks]; [contradiction|].
  rewrite qsum_cons.
  apply Qlt_le_trans with (y := f k + 0).
  - rewrite Qplus_0_r. apply H. now left.
  - apply Qplus_le_compat; [apply Qle_refl|].
    apply qsum_nonneg. intros k' Hk'. apply Qlt_le_weak. apply H. now right.
Qed.

Lemma transition_value_pos corpus links d p :
  corpus <> [] -> valid_damping d -> 0 < transition_value corpus links d p.
Proof.
  intros Hne [Hd0 Hd1]. pose proof (len_pos corpus Hne) as HN.
  assert (Hrp : 0 < (1 - d) / len corpus).
  { apply Qlt_shift_div_l; [exact HN | lra]. }
  unfold transition_value. destruct links as [|l links]; simpl Nat.eqb; cbv iota.
  - apply Qlt_shift_div_l; [exact HN | lra].
  - assert (HL : 0 < len (l :: links)) by (apply len_pos; discriminate).
    assert (Hlp : 0 < d / len (l :: links)).
    { apply Qlt_shift_div_l; [exact HL | lra]. }
    destruct (mem p (l :: links)); lra.
Qed.

Lemma sample_step_ok corpus d r page pr :
  NoDup (Dict.keys corpus) -> valid_damping d -> In page (Dict.keys corpus) ->
  exists page',
    sample_step corpus d (r, page, pr)
    = Ok (snd (random r), page', record_visit pr page')
    /\ In page' (Dict.keys corpus).
Proof.
  intros Hnd Hd Hin.
  destruct (In_keys_get _ _ Hin) as [links Hget].
  assert (Hne : corpus <> []) by (intros ->; discriminate).
  unfold sample_step. rewrite (transition_model_tabulate _ _ _ _ Hnd Hget).
  simpl bind. rewrite keys_tabulate, values_tabulate.
  destruct (random_choices_pop_ok (Dict.keys corpus)
              (map (transition_value corpus links d) (Dict.keys corpus)) r)
    as (x & Hx & Hxin).
  - apply length_map.
  - apply qsum_pos.
    + destruct corpus; [contradiction | discriminate].
    + intros k _. now apply transition_value_pos.
  - rewrite Hx. simpl bind. exists x. split; [|exact Hxin].
    unfold Dict.has, Dict.getitem, record_visit.
    destruct (Dict.get pr x); reflexivity.
Qed.

Lemma sample_loop_ok corpus d count :
  NoDup (Dict.keys corpus) -> valid_damping d ->
  forall r page pr, In page (Dict.keys corpus) ->
  let visits := sample_visits corpus d count (r, page, pr) in
  exists r' page',
    sample_loop corpus d count (r, page, pr)
    = Ok (r', page', fold_left record_visit visits pr)
    /\ List.length visits = count
    /\ Forall (fun p => In p (Dict.keys corpus)) visits.
Proof.
  intros Hnd Hd. induction count as [|count IH]; intros r page pr Hin;
    cbv zeta; cbn [sample_loop sample_visits].
  - exists r, page. repeat split. constructor.
  - destruct (sample_step_ok corpus d r page pr Hnd Hd Hin) as (page' & Hs & Hin').
    rewrite Hs. cbn [bind fst snd fold_left List.length].
    destruct (IH (snd (random r)) page' (record_visit pr page') Hin')
      as (r' & page'' & Hl & Hlen & Hall).
    exists r', page''. split; [exact Hl|]. split.
    + now rewrite Hlen.
    + constructor; assumption.
Qed.

(** ** The counters *)

Lemma get_set_other {V} (d : Dict.t V) k k' v :
  k' <> k -> Dict.get (Dict.set d k v) k' = Dict.get d k'.
Proof.
  intros Hne. induction d as [|[k0 v0] d IH]; simpl.
  - destruct (String.eqb_spec k' k); [contradiction | reflexivity].
  - destruct (String.eqb_spec k k0) as [->|Hk]; simpl.
    + destruct (String.eqb_spec k' k0); [contradiction | reflexivity].
    + destruct (String.eqb_spec k' k0); [reflexivity | exact IH].
Qed.

Lemma keys_set_In {V} (d : Dict.t V) k v :
  In k (Dict.keys d) -> Dict.keys (Dict.set d k v) = Dict.keys d.
Proof.
  induction d as [|[k0 v0] d IH]; simpl; [contradiction|].
  destruct (String.eqb_spec k k0) as [->|Hk]; simpl; [reflexivity|].
  intros [Heq|Hin]; [congruence|]. now rewrite IH.
Qed.

Lemma get_Some_or_fresh {V} (d : Dict.t V) k :
  (exists v, Dict.get d k = Some v /\ In k (Dict.keys d))
  \/ (Dict.get d k = None /\ ~ In k (Dict.keys d)).
Proof.
  destruct (in_dec string_dec k (Dict.keys d)) as [Hin|Hnin].
  - left. destruct (In_keys_get _ _ Hin) as [v Hv]. now exists v.
  - right. split; [now apply get_None | exact Hnin].
Qed.

Lemma keys_normalize n d : Dict.keys (normalize n d) = Dict.keys d.
Proof. unfold normalize, Dict.keys. rewrite map_map. reflexivity. Qed.

Lemma get_normalize n d p :
  Dict.get (normalize n d) p
  = match Dict.get d p with Some v => Some (v / inject_Z n) | None => None end.
Proof.
  induction d as [|[k v] d IH]; simpl; [reflexivity|].
  destruct (String.eqb p k); [reflexivity | exact IH].
Qed.

Lemma visits_of_snoc seen x p :
  visits_of (seen ++ [x]) p
  = (visits_of seen p + if string_dec x p then 1 else 0)%nat.
Proof.
  unfold visits_of. rewrite count_occ_app. simpl.
  destruct (string_dec x p); reflexivity.
Qed.

(** The counters after a sequence of visits: one entry per visited page,
    holding the number of its visits. *)
Lemma tally_invariant visits : forall d seen,
  NoDup (Dict.keys d) ->
  (forall p, In p (Dict.keys d) <-> In p seen) ->
  (forall p v, Dict.get d p = Some v ->
               v == inject_Z (Z.of_nat (visits_of seen p))) ->
  let d' := fold_left record_visit visits d in
  NoDup (Dict.keys d') /\
  (forall p, In p (Dict.keys d') <-> In p (seen ++ visits)) /\
  (forall p v, Dict.get d' p = Some v ->
               v == inject_Z (Z.of_nat (visits_of (seen ++ visits) p))).
Proof.
  induction visits as [|x visits IH]; intros d seen Hnd Hkeys Hval; simpl.
  - rewrite app_nil_r. auto.
  - replace (seen ++ x :: visits) with ((seen ++ [x]) ++ visits)
      by (now rewrite <- app_assoc).
    apply IH; unfold record_visit.
    + destruct (get_Some_or_fresh d x) as [(v & Hv & Hin)|[Hv Hnin]]; rewrite Hv.
      * now rewrite keys_set_In.
      * rewrite set_fresh by exact Hnin. rewrite keys_app. simpl.
        apply NoDup_app; [exact Hnd | repeat constructor; intros [] |].
        intros a Ha [<-|[]]. contradiction.
    + intros p.
      destruct (get_Some_or_fresh d x) as [(v & Hv & Hin)|[Hv Hnin]]; rewrite Hv.
      * rewrite keys_set_In by exact Hin. rewrite in_app_iff, Hkeys. simpl.
        split; [tauto|]. intros [H|[<-|[]]]; [exact H | now apply Hkeys].
      * rewrite set_fresh by exact Hnin. rewrite keys_app, !in_app_iff, Hkeys.
        reflexivity.
    + intros p v. rewrite visits_of_snoc.
      destruct (string_dec x p) as [->|Hne].
      * destruct (get_Some_or_fresh d p) as [(v0 & Hv & Hin)|[Hv Hnin]];
          rewrite Hv, get_set_same; intros [= <-].
        -- rewrite (Hval p v0 Hv).
           rewrite Nat2Z.inj_add, inject_Z_plus. reflexivity.
        -- assert (H0 : visits_of seen p = 0%nat).
           { apply count_occ_not_In. now rewrite <- Hkeys. }
           rewrite H0. reflexivity.
      * assert (Hg : forall w, Dict.get (Dict.set d x w) p = Dict.get d p).
        { intros w. apply get_set_other. congruence. }
        destruct (Dict.get d x); rewrite Hg; intros Hp;
          rewrite (Hval p v Hp); now rewrite Nat.add_0_r.
Qed.

Lemma tally_spec visits :
  NoDup (Dict.keys (tally visits)) /\
  (forall p, In p (Dict.keys (tally visits)) <-> In p visits) /\
  (forall p v, Dict.get (tally visits) p = Some v ->
               v == inject_Z (Z.of_nat (visits_of visits p))).
Proof.
  apply (tally_invariant visits [] []).
  - constructor.
  - intros p. reflexivity.
  - intros p v. discriminate.
Qed.

Lemma values_set_sum (d : dist) k w :
  pysum (Dict.values (Dict.set d k w)) == pysum (Dict.values d) + w - rank_of d k.
Proof.
  unfold rank_of. induction d as [|[k0 v0] d IH]; simpl.
  - unfold pysum. simpl. ring.
  - destruct (String.eqb k k0); simpl.
    + rewrite !pysum_cons. ring.
    + rewrite !pysum_cons, IH. ring.
Qed.

Lemma record_visit_sum d p :
  pysum (Dict.values (record_visit d p)) == pysum (Dict.values d) + 1.
Proof.
  unfold record_visit. destruct (Dict.get d p) as [v|] eqn:E;
    rewrite values_set_sum; unfold rank_of; rewrite E; ring.
Qed.

Lemma fold_record_visit_sum visits : forall d,
  pysum (Dict.values (fold_left record_visit visits d))
  == pysum (Dict.values d) + len visits.
Proof.
  induction visits as [|x visits IH]; intros d.
  - simpl. unfold len. simpl. ring.
  - simpl fold_left. rewrite IH, record_visit_sum, len_cons. ring.
Qed.

Lemma tally_sum visits : pysum (Dict.values (tally visits)) == len visits.
Proof.
  unfold tally. rewrite fold_record_visit_sum. unfold pysum. simpl. ring.
Qed.

Lemma normalize_sum n d :
  pysum (Dict.values (normalize n d)) == pysum (Dict.values d) / inject_Z n.
Proof.
  induction d as [|[k v] d IH]; simpl.
  - unfold pysum, Qdiv. simpl. ring.
  - rewrite !pysum_cons, IH. unfold Qdiv. ring.
Qed.

Lemma inject_Z_nonzero n : n <> 0%Z -> ~ inject_Z n == 0.
Proof.
  intros Hn H. apply Hn. unfold Qeq in H. simpl in H. lia.
Qed.

(** The last loop of [sample_pagerank] on a dict. *)
Lemma normalize_loop n (d : dist) :
  NoDup (Dict.keys d) -> (d = [] \/ n <> 0%Z) ->
  for_each
    (fun page_rank page =>
       v <- Dict.getitem page_rank page ;;
       q <- pydiv v (inject_Z n) ;;
       Ok (Dict.set page_rank page q))
    (Dict.keys d) d
  = Ok (normalize n d).
Proof.
  intros Hnd [->|Hn]; [reflexivity|].
  pose proof (for_each_update (fun _ v => pydiv v (inject_Z n))
                (fun page_rank page =>
                   v <- Dict.getitem page_rank page ;;
                   q <- pydiv v (inject_Z n) ;;
                   Ok (Dict.set page_rank page q))) as H.
  assert (Hb : forall (d0 : Dict.t Q) k v, Dict.get d0 k = Some v ->
            (v0 <- Dict.getitem d0 k ;;
             q <- pydiv v0 (inject_Z n) ;; Ok (Dict.set d0 k q))
            = (v' <- pydiv v (inject_Z n) ;; Ok (Dict.set d0 k v'))).
  { intros d0 k v Hv. unfold Dict.getitem. now rewrite Hv. }
  specialize (H Hb d []).
  simpl app in H. rewrite (H Hnd).
  rewrite (map_result_ok _ (fun kv => (fst kv, snd kv / inject_Z n))).
  - reflexivity.
  - intros [k v] _. simpl. rewrite pydiv_ok by now apply inject_Z_nonzero.
    reflexivity.
Qed.

(** [sample_pagerank] returns the tally of the pages it drew, divided by
    [n]; it draws [n - 1] pages, all of the corpus. *)
Lemma sample_pagerank_normalized r corpus d n :
  corpus <> [] ->
  NoDup (Dict.keys corpus) ->
  valid_damping d -> valid_rng r -> (1 <= n)%Z ->
  sample_pagerank r corpus d n = Ok (normalize n (tally (drawn r corpus d n)))
  /\ List.length (drawn r corpus d n) = Z.to_nat (n - 1)
  /\ Forall (fun p => In p (Dict.keys corpus)) (drawn r corpus d n).
Proof.
  intros Hne Hnd Hd Hr Hn. unfold sample_pagerank, drawn.
  destruct (random_choice_ok (Dict.keys corpus) r) as (x & Hx & Hin).
  - destruct corpus; [contradiction | discriminate].
  - apply Hr.
  - rewrite Hx. cbn [bind fst snd].
    destruct (sample_loop_ok corpus d (Z.to_nat (n - 1)) Hnd Hd
                (snd (random r)) x [] Hin) as (r' & page' & Hl & Hlen & Hall).
    rewrite Hl. cbn [bind]. fold (tally (sample_visits corpus d (Z.to_nat (n - 1))
                                          (snd (random r), x, []))).
    split; [|split; assumption].
    apply normalize_loop; [apply tally_spec | right; lia].
Qed.

(** With [n <= 1] the loop body never runs and the result is the empty
    dict, whatever the damping factor. *)
Lemma sample_pagerank_no_visit r corpus d n :
  corpus <> [] -> valid_rng r -> (n <= 1)%Z ->
  sample_pagerank r corpus d n = Ok [].
Proof.
  intros Hne Hr Hn. unfold sample_pagerank.
  destruct (random_choice_ok (Dict.keys corpus) r) as (x & Hx & Hin).
  - destruct corpus; [contradiction | discriminate].
  - apply Hr.
  - rewrite Hx. cbn [bind].
    replace (Z.to_nat (n - 1)) with O by lia. reflexivity.
Qed.

Lemma normalize_tally_entry n visits p v :
  Dict.get (normalize n (tally visits)) p = Some v ->
  (1 <= visits_of visits p)%nat
  /\ v == inject_Z (Z.of_nat (visits_of visits p)) / inject_Z n.
Proof.
  rewrite get_normalize.
  destruct (Dict.get (tally visits) p) as [v0|] eqn:E; [|discriminate].
  intros [= <-]. destruct (tally_spec visits) as (_ & Hkeys & Hval).
  split.
  - apply get_In_keys in E. apply Hkeys in E.
    apply (count_occ_In string_dec) in E. unfold visits_of. lia.
  - now rewrite (Hval p v0 E).
Qed.

Lemma valid_rng_zeros : valid_rng zeros.
Proof. intros i. split; [apply Qle_refl | reflexivity]. Qed.

Lemma valid_DAMPING : valid_damping DAMPING.
Proof. split; reflexivity. Qed.

(** ** The sampling engine *)

(** C1 (the code departs from it): for every non-empty corpus, damping
    factor in (0,1), source of draws and sample count [n >= 1],
    [sample_pagerank] returns a dict whose values sum to [(n-1)/n]: it
    records [n-1] visits and divides every counter by [n], not by the number
    of visits recorded, so the sum is never 1. *)
Theorem sample_pagerank_sum r corpus d n :
  corpus <> [] ->
  nodupb (Dict.keys corpus) = true ->
  valid_damping d -> valid_rng r -> (1 <= n)%Z ->
  exists page_rank,
    sample_pagerank r corpus d n = Ok page_rank /\
    page_rank = normalize n (tally (drawn r corpus d n)) /\
    len (drawn r corpus d n) == inject_Z (n - 1) /\
    pysum (Dict.values page_rank) == inject_Z (n - 1) / inject_Z n /\
    ~ pysum (Dict.values page_rank) == 1.
Proof.
  intros Hne Hnd Hd Hr Hn. apply nodupb_NoDup in Hnd.
  destruct (sample_pagerank_normalized r corpus d n Hne Hnd Hd Hr Hn)
    as (Hs & Hlen & _).
  assert (Hl : len (drawn r corpus d n) == inject_Z (n - 1)).
  { unfold len. rewrite Hlen, Z2Nat.id by lia. reflexivity. }
  assert (Hsum : pysum (Dict.values (normalize n (tally (drawn r corpus d n))))
                 == inject_Z (n - 1) / inject_Z n).
  { now rewrite normalize_sum, tally_sum, Hl. }
  eexists. split; [exact Hs|]. split; [reflexivity|].
  split; [exact Hl|]. split; [exact Hsum|].
  rewrite Hsum. intros H.
  assert (Hn0 : ~ inject_Z n == 0) by (apply inject_Z_nonzero; lia).
  assert (H' : inject_Z (n - 1) == inject_Z n).
  { rewrite <- (Qmult_1_l (inject_Z n)), <- H. now field. }
  unfold Qeq in H'. simpl in H'. lia.
Qed.

Lemma sample_pagerank_sum_witness :
  exists page_rank,
    sample_pagerank zeros two_cycle DAMPING 2 = Ok page_rank /\
    page_rank = normalize 2 (tally (drawn zeros two_cycle DAMPING 2)) /\
    len (drawn zeros two_cycle DAMPING 2) == inject_Z (2 - 1) /\
    pysum (Dict.values page_rank) == inject_Z (2 - 1) / inject_Z 2 /\
    ~ pysum (Dict.values page_rank) == 1.
Proof.
  apply (sample_pagerank_sum zeros two_cycle DAMPING 2).
  - discriminate.
  - reflexivity.
  - split; reflexivity.
  - intros i. split; [apply Qle_refl | reflexivity].
  - lia.
Defined.

(** C2 (the code departs from it): for every non-empty corpus, damping
    factor in (0,1), source of draws and sample count [n >= 1],
    [sample_pagerank] returns a dict whose keys are exactly the pages drawn
    during the walk, none twice and all of them pages of the corpus, each
    with a positive value.  No counter is initialised, so a page of the
    corpus that was never drawn gets no entry, although the docstring
    promises a value for each page. *)
Theorem sample_pagerank_entries r corpus d n :
  corpus <> [] ->
  nodupb (Dict.keys corpus) = true ->
  valid_damping d -> valid_rng r -> (1 <= n)%Z ->
  exists page_rank,
    sample_pagerank r corpus d n = Ok page_rank /\
    NoDup (Dict.keys page_rank) /\
    (forall p, In p (Dict.keys page_rank) <-> In p (drawn r corpus d n)) /\
    (forall p, In p (Dict.keys page_rank) -> In p (Dict.keys corpus)) /\
    (forall p v, Dict.get page_rank p = Some v -> 0 < v) /\
    (forall p, ~ In p (drawn r corpus d n) -> Dict.get page_rank p = None).
Proof.
  intros Hne Hnd Hd Hr Hn. apply nodupb_NoDup in Hnd.
  destruct (sample_pagerank_normalized r corpus d n Hne Hnd Hd Hr Hn)
    as (Hs & _ & Hall).
  destruct (tally_spec (drawn r corpus d n)) as (Hnd' & Hkeys & _).
  eexists. split; [exact Hs|]. rewrite keys_normalize.
  split; [exact Hnd'|]. split; [exact Hkeys|]. split; [|split].
  - intros p Hp. apply Hkeys in Hp. rewrite Forall_forall in Hall. now apply Hall.
  - intros p v Hv. apply normalize_tally_entry in Hv as [Hc Hv]. rewrite Hv.
    apply Qlt_shift_div_l.
    + change 0 with (inject_Z 0). rewrite <- Zlt_Qlt. lia.
    + rewrite Qmult_0_l. change 0 with (inject_Z 0). rewrite <- Zlt_Qlt. lia.
  - intros p Hp. apply get_None. rewrite keys_normalize, Hkeys. exact Hp.
Qed.

Lemma sample_pagerank_entries_witness :
  exists page_rank,
    sample_pagerank zeros two_cycle DAMPING 2 = Ok page_rank /\
    NoDup (Dict.keys page_rank) /\
    (forall p, In p (Dict.keys page_rank) <-> In p (drawn zeros two_cycle DAMPING 2)) /\
    (forall p, In p (Dict.keys page_rank) -> In p (Dict.keys two_cycle)) /\
    (forall p v, Dict.get page_rank p = Some v -> 0 < v) /\
    (forall p, ~ In p (drawn zeros two_cycle DAMPING 2) -> Dict.get page_rank p = None).
Proof.
  apply (sample_pagerank_entries zeros two_cycle DAMPING 2).
  - discriminate.
  - reflexivity.
  - split; reflexivity.
  - intros i. split; [apply Qle_refl | reflexivity].
  - lia.
Defined.

(** On the two-page cycle with [n = 2] the result has one entry only, so a
    page of the corpus has none. *)
Lemma sample_pagerank_missing_entry :
  ~ (forall r corpus d n,
       corpus <> [] -> wf_corpus corpus = true ->
       valid_damping d -> valid_rng r -> (1 <= n)%Z ->
       exists page_rank,
         sample_pagerank r corpus d n = Ok page_rank /\
         forall p, In p (Dict.keys corpus) ->
                   exists v, Dict.get page_rank p = Some v).
Proof.
  intros H.
  destruct (H zeros two_cycle DAMPING 2%Z) as (pr & Hs & Hall).
  - discriminate.
  - reflexivity.
  - exact valid_DAMPING.
  - exact valid_rng_zeros.
  - lia.
  - vm_compute in Hs. injection Hs as <-.
    destruct (Hall "B"%string) as [v Hv].
    + right. now left.
    + discriminate Hv.
Qed.

Lemma list_sum_map_add {A} (f g : A -> nat) l :
  list_sum (map (fun x => (f x + g x)%nat) l)
  = (list_sum (map f l) + list_sum (map g l))%nat.
Proof.
  induction l as [|x l IH]; simpl; [reflexivity|]. rewrite IH. lia.
Qed.

Lemma list_sum_indicator (x : page) ks :
  NoDup ks -> In x ks ->
  list_sum (map (fun p => if string_dec x p then 1%nat else 0%nat) ks) = 1%nat.
Proof.
  induction ks as [|k ks IH]; intros Hnd Hin; [contradiction|].
  inversion Hnd as [|? ? Hk Hnd']; subst. simpl.
  destruct (string_dec x k) as [->|Hne].
  - f_equal. clear IH Hin Hnd. induction ks as [|k' ks IH]; [reflexivity|].
    simpl. destruct (string_dec k k') as [->|_].
    + exfalso. apply Hk. now left.
    + apply IH.
      * intros H. apply Hk. now right.
      * now inversion Hnd'.
  - destruct Hin as [->|Hin]; [contradiction|]. now apply IH.
Qed.

(** The visit counts of the pages of a duplicate-free list that covers the
    visits add up to the number of visits. *)
Lemma visits_total ks visits :
  NoDup ks -> (forall p, In p visits -> In p ks) ->
  list_sum (map (visits_of visits) ks) = List.length visits.
Proof.
  intros Hnd. induction visits as [|x visits IH]; intros Hcover.
  - clear Hnd Hcover. induction ks as [|k ks IHk]; [reflexivity|]. exact IHk.
  - rewrite (map_ext (visits_of (x :: visits))
               (fun p => ((if string_dec x p then 1 else 0)
                          + visits_of visits p)%nat)).
    + rewrite list_sum_map_add, list_sum_indicator, IH.
      * reflexivity.
      * intros p Hp. apply Hcover. now right.
      * exact Hnd.
      * apply Hcover. now left.
    + intros p. unfold visits_of. simpl.
      destruct (string_dec x p); reflexivity.
Qed.

(** C10: for a sample count [n >= 1] exactly [n - 1] visits are recorded:
    the result has an entry for exactly the pages drawn in the [n - 1]
    passes of the loop, the value at a page is the number of its visits, a
    positive integer, times [1/n], and the visits counted in the result
    total [n - 1]; for [n = 1] the loop body never runs and the result is
    the empty dict, whose values sum to 0. *)
Theorem sample_pagerank_visits r corpus d n :
  corpus <> [] ->
  nodupb (Dict.keys corpus) = true ->
  valid_damping d -> valid_rng r -> (1 <= n)%Z ->
  List.length (drawn r corpus d n) = Z.to_nat (n - 1) /\
  exists page_rank,
    sample_pagerank r corpus d n = Ok page_rank /\
    (n = 1%Z -> page_rank = [] /\ pysum (Dict.values page_rank) == 0) /\
    (forall p, In p (drawn r corpus d n) <->
               exists v, Dict.get page_rank p = Some v) /\
    (forall p v, Dict.get page_rank p = Some v ->
       (1 <= visits_of (drawn r corpus d n) p)%nat /\
       v == inject_Z (Z.of_nat (visits_of (drawn r corpus d n) p))
            * (1 / inject_Z n)) /\
    NoDup (Dict.keys page_rank) /\
    list_sum (map (visits_of (drawn r corpus d n)) (Dict.keys page_rank))
    = Z.to_nat (n - 1).
Proof.
  intros Hne Hnd Hd Hr Hn. apply nodupb_NoDup in Hnd.
  destruct (sample_pagerank_normalized r corpus d n Hne Hnd Hd Hr Hn)
    as (Hs & Hlen & _).
  destruct (tally_spec (drawn r corpus d n)) as (Hnd' & Hkeys & _).
  split; [exact Hlen|]. eexists. split; [exact Hs|].
  rewrite keys_normalize. split; [|split; [|split; [|split]]].
  - intros ->. simpl in Hlen. apply length_zero_iff_nil in Hlen.
    rewrite Hlen. split; reflexivity.
  - intros p. rewrite <- Hkeys, <- (keys_normalize n). split.
    + apply In_keys_get.
    + intros [v Hv]. now apply get_In_keys in Hv.
  - intros p v Hv. apply normalize_tally_entry in Hv as [Hc Hv].
    split; [exact Hc|]. rewrite Hv. unfold Qdiv. ring.
  - exact Hnd'.
  - rewrite <- Hlen. apply visits_total; [exact Hnd'|].
    intros p Hp. now apply Hkeys.
Qed.

Lemma sample_pagerank_visits_witness :
  List.length (drawn zeros dangling3 DAMPING 4) = Z.to_nat (4 - 1) /\
  exists page_rank,
    sample_pagerank zeros dangling3 DAMPING 4 = Ok page_rank /\
    (4%Z = 1%Z -> page_rank = [] /\ pysum (Dict.values page_rank) == 0) /\
    (forall p, In p (drawn zeros dangling3 DAMPING 4) <->
               exists v, Dict.get page_rank p = Some v) /\
    (forall p v, Dict.get page_rank p = Some v ->
       (1 <= visits_of (drawn zeros dangling3 DAMPING 4) p)%nat /\
       v == inject_Z (Z.of_nat (visits_of (drawn zeros dangling3 DAMPING 4) p))
            * (1 / inject_Z 4)) /\
    NoDup (Dict.keys page_rank) /\
    list_sum (map (visits_of (drawn zeros dangling3 DAMPING 4))
                (Dict.keys page_rank))
    = Z.to_nat (4 - 1).
Proof.
  apply (sample_pagerank_visits zeros dangling3 DAMPING 4).
  - discriminate.
  - reflexivity.
  - split; reflexivity.
  - intros i. split; [apply Qle_refl | reflexivity].
  - lia.
Defined.

(** ** One sweep of the iterative engine *)

Lemma getitem_rank_of (d : dist) q :
  In q (Dict.keys d) -> Dict.getitem d q = Ok (rank_of d q).
Proof.
  intros Hin. destruct (In_keys_get _ _ Hin) as [v Hv].
  unfold Dict.getitem, rank_of. now rewrite Hv.
Qed.

Lemma getitem_links_of (corpus : corpus_t) q :
  In q (Dict.keys corpus) -> Dict.getitem corpus q = Ok (links_of corpus q).
Proof.
  intros Hin. destruct (In_keys_get _ _ Hin) as [v Hv].
  unfold Dict.getitem, links_of. now rewrite Hv.
Qed.

Lemma choice_step_ok corpus pr ip p acc q :
  In q (Dict.keys corpus) -> In q (Dict.keys pr) ->
  exists v, choice_step corpus pr ip p acc q = Ok v
            /\ v == acc + rank_of pr q * weight corpus ip q p.
Proof.
  intros Hc Hp. unfold choice_step, weight.
  rewrite (getitem_links_of _ _ Hc). cbn [bind].
  destruct (List.length (links_of corpus q) =? 0)%nat eqn:HL.
  - rewrite (getitem_rank_of _ _ Hp). cbn [bind].
    eexists. split; [reflexivity|]. reflexivity.
  - destruct (mem p (links_of corpus q)).
    + rewrite (getitem_rank_of _ _ Hp). cbn [bind].
      assert (HL' : ~ len (links_of corpus q) == 0).
      { apply len_nonzero. intros E. rewrite E in HL. discriminate. }
      rewrite pydiv_ok by exact HL'. cbn [bind].
      eexists. split; [reflexivity|]. now field.
    + eexists. split; [reflexivity|]. ring.
Qed.

Lemma choice_loop corpus pr ip p ks : forall acc,
  incl ks (Dict.keys corpus) -> incl ks (Dict.keys pr) ->
  exists v, for_each (choice_step corpus pr ip p) ks acc = Ok v
            /\ v == acc + qsum (fun q => rank_of pr q * weight corpus ip q p) ks.
Proof.
  induction ks as [|q ks IH]; intros acc Hc Hp.
  - exists acc. split; [reflexivity|]. rewrite qsum_nil. ring.
  - destruct (choice_step_ok corpus pr ip p acc q) as (v & Hv & Hveq).
    + apply Hc. now left.
    + apply Hp. now left.
    + cbn [for_each]. rewrite Hv. cbn [bind].
      destruct (IH v) as (w & Hw & Hweq).
      * intros x Hx. apply Hc. now right.
      * intros x Hx. apply Hp. now right.
      * exists w. split; [exact Hw|]. rewrite Hweq, Hveq, qsum_cons. ring.
Qed.

Lemma choice_of_ok corpus pr ip p :
  incl (Dict.keys corpus) (Dict.keys pr) ->
  for_each (choice_step corpus pr ip p) (Dict.keys corpus) 0
  = Ok (choice_of corpus pr ip p)
  /\ choice_of corpus pr ip p
     == qsum (fun q => rank_of pr q * weight corpus ip q p) (Dict.keys corpus).
Proof.
  intros Hp.
  destruct (choice_loop corpus pr ip p (Dict.keys corpus) 0 (incl_refl _) Hp)
    as (v & Hv & Hveq).
  unfold choice_of. rewrite Hv. split; [reflexivity|]. simpl value.
  rewrite Hveq. ring.
Qed.

(** A loop over the keys of a dict that overwrites every value. *)
Lemma for_each_overwrite {V} (g : page -> V)
    (body : Dict.t V -> page -> result (Dict.t V)) (d : Dict.t V) :
  (forall d0 k, body d0 k = Ok (Dict.set d0 k (g k))) ->
  NoDup (Dict.keys d) ->
  for_each body (Dict.keys d) d = Ok (tabulate g (Dict.keys d)).
Proof.
  intros Hbody Hnd.
  pose proof (for_each_update (fun k _ => Ok (g k)) body) as H.
  specialize (H (fun d0 k _ _ => Hbody d0 k) d []).
  simpl app in H. rewrite (H Hnd).
  rewrite (map_result_ok _ (fun kv => (fst kv, g (fst kv)))).
  - simpl. unfold tabulate, Dict.keys. now rewrite map_map.
  - reflexivity.
Qed.

Lemma rank_loop corpus pr ip rp d nr :
  NoDup (Dict.keys corpus) ->
  Dict.keys nr = Dict.keys corpus ->
  incl (Dict.keys corpus) (Dict.keys pr) ->
  for_each (rank_step corpus pr ip rp d) (Dict.keys corpus) nr
  = Ok (tabulate (fun p => Some (sweep_rank corpus pr ip rp d p))
          (Dict.keys corpus)).
Proof.
  intros Hnd Hnr Hpr. rewrite <- Hnr.
  apply for_each_overwrite; [|now rewrite Hnr].
  intros d0 k. unfold rank_step.
  destruct (choice_of_ok corpus pr ip k Hpr) as [-> _]. reflexivity.
Qed.

Lemma map_result_number (l : list Q) : map_result number (map Some l) = Ok l.
Proof.
  induction l as [|x l IH]; simpl; [reflexivity|]. now rewrite IH.
Qed.

Lemma change_loop pr new ks : forall acc,
  incl ks (Dict.keys pr) -> incl ks (Dict.keys new) -> 0 <= acc ->
  exists v, for_each (change_step pr new) ks acc = Ok v
            /\ 0 <= v
            /\ v <= acc + qsum (fun p => Qabs (rank_of pr p - rank_of new p)) ks.
Proof.
  induction ks as [|p ks IH]; intros acc Hpr Hnew Hacc.
  - exists acc. split; [reflexivity|]. split; [exact Hacc|].
    rewrite qsum_nil. lra.
  - cbn [for_each]. unfold change_step at 1.
    rewrite (getitem_rank_of pr p) by (apply Hpr; now left).
    rewrite (getitem_rank_of new p) by (apply Hnew; now left).
    cbn [bind].
    pose proof (Qabs_nonneg (rank_of pr p - rank_of new p)) as Hc.
    pose proof (qsum_cons (fun p => Qabs (rank_of pr p - rank_of new p)) p ks)
      as Hq.
    cbv beta in Hq.
    set (change := Qabs (rank_of pr p - rank_of new p)) in *.
    destruct (Qgt_bool change acc).
    + cbn [bind]. destruct (IH change) as (v & Hv & Hv0 & Hvle).
      * intros x Hx. apply Hpr. now right.
      * intros x Hx. apply Hnew. now right.
      * exact Hc.
      * exists v. split; [exact Hv|]. split; [exact Hv0|]. lra.
    + cbn [bind]. destruct (IH acc) as (v & Hv & Hv0 & Hvle).
      * intros x Hx. apply Hpr. now right.
      * intros x Hx. apply Hnew. now right.
      * exact Hacc.
      * exists v. split; [exact Hv|]. split; [exact Hv0|]. lra.
Qed.

Lemma change_of_ok corpus pr new :
  incl (Dict.keys corpus) (Dict.keys pr) ->
  incl (Dict.keys corpus) (Dict.keys new) ->
  for_each (change_step pr new) (Dict.keys corpus) 0
  = Ok (change_of corpus pr new)
  /\ 0 <= change_of corpus pr new
  /\ change_of corpus pr new <= total_change corpus pr new.
Proof.
  intros Hpr Hnew.
  destruct (change_loop pr new (Dict.keys corpus) 0 Hpr Hnew (Qle_refl 0))
    as (v & Hv & Hv0 & Hvle).
  unfold change_of, total_change. rewrite Hv. simpl value.
  split; [reflexivity|]. split; [exact Hv0|]. lra.
Qed.

(** A sweep whose [norm_factor] is not zero does not raise and ends in
    [next_state]. *)
Lemma iterate_body_ok corpus ip rp d st :
  NoDup (Dict.keys corpus) ->
  Dict.keys (page_rank st) = Dict.keys corpus ->
  Dict.keys (new_rank st) = Dict.keys corpus ->
  ~ norm_of corpus (page_rank st) ip rp d == 0 ->
  iterate_body corpus ip rp d st = Ok (next_state corpus ip rp d st).
Proof.
  intros Hnd Hpr Hnr Hnorm. unfold iterate_body.
  rewrite rank_loop; [|assumption|assumption|rewrite Hpr; apply incl_refl].
  cbn [bind]. rewrite values_tabulate.
  rewrite <- (map_map (sweep_rank corpus (page_rank st) ip rp d) Some).
  rewrite map_result_number. cbn [bind].
  change (pysum (map (sweep_rank corpus (page_rank st) ip rp d) (Dict.keys corpus)))
    with (norm_of corpus (page_rank st) ip rp d).
  rewrite (map_result_ok _
             (fun item : page * option Q =>
                (fst item,
                 match snd item with
                 | Some r => r / norm_of corpus (page_rank st) ip rp d
                 | None => 0
                 end))).
  2:{ intros [k v] Hin. unfold tabulate in Hin. apply in_map_iff in Hin.
      destruct Hin as (k' & [= <- <-] & _). simpl.
      now rewrite pydiv_ok. }
  assert (Hmap :
            map (fun item : page * option Q =>
                   (fst item,
                    match snd item with
                    | Some r => r / norm_of corpus (page_rank st) ip rp d
                    | None => 0
                    end))
              (tabulate (fun p => Some (sweep_rank corpus (page_rank st) ip rp d p))
                 (Dict.keys corpus))
            = tabulate (next_rank corpus (page_rank st) ip rp d) (Dict.keys corpus)).
  { unfold tabulate. rewrite map_map. reflexivity. }
  cbn [bind]. rewrite !Hmap.
  destruct (change_of_ok corpus (page_rank st)
              (tabulate (next_rank corpus (page_rank st) ip rp d)
                 (Dict.keys corpus))) as (Hc & _).
  - rewrite Hpr. apply incl_refl.
  - rewrite keys_tabulate. apply incl_refl.
  - rewrite Hc. reflexivity.
Qed.

(** ** The sweep as a linear map *)

Lemma values_as_rank_of (d : dist) :
  NoDup (Dict.keys d) -> map (rank_of d) (Dict.keys d) = Dict.values d.
Proof.
  induction d as [|[k v] d IH]; intros Hnd; [reflexivity|].
  simpl in Hnd. inversion Hnd as [|? ? Hk Hnd']; subst.
  simpl. unfold rank_of at 1. simpl. rewrite String.eqb_refl. f_equal.
  rewrite <- (IH Hnd'). apply map_ext_in. intros k' Hk'.
  unfold rank_of. simpl.
  destruct (String.eqb_spec k' k) as [->|Hne]; [contradiction | reflexivity].
Qed.

Lemma pysum_values (d : dist) :
  NoDup (Dict.keys d) -> pysum (Dict.values d) = qsum (rank_of d) (Dict.keys d).
Proof.
  intros Hnd. unfold qsum. now rewrite values_as_rank_of.
Qed.

Lemma rank_of_tabulate v ks p : In p ks -> rank_of (tabulate v ks) p = v p.
Proof.
  intros Hin. unfold rank_of. now rewrite get_tabulate.
Qed.

Lemma qsum_scale_r c f ks : qsum (fun k => f k * c) ks == qsum f ks * c.
Proof.
  rewrite (qsum_ext _ (fun k => c * f k)) by (intros; ring).
  rewrite qsum_scale. ring.
Qed.

Section Sweep.

Variable corpus : corpus_t.
Variable d : Q.
Hypothesis Hwf : wf_corpus corpus = true.
Hypothesis Hne : corpus <> [].

Let K := Dict.keys corpus.
Let ip := 1 / len corpus.
Let rp := (1 - d) / len corpus.

Lemma len_keys : len K == len corpus.
Proof. unfold K, len, Dict.keys. now rewrite length_map. Qed.

Lemma weight_nonneg q p : 0 <= weight corpus ip q p.
Proof.
  pose proof (len_pos corpus Hne) as HN.
  unfold weight. destruct (List.length (links_of corpus q) =? 0)%nat eqn:HL.
  - unfold ip. apply Qle_shift_div_l; [exact HN | lra].
  - destruct (mem p (links_of corpus q)); [|apply Qle_refl].
    apply Qle_shift_div_l; [|lra].
    apply len_pos. intros E. rewrite E in HL. discriminate.
Qed.

(** The shares of the rank of a page add up to 1. *)
Lemma weight_sum q : In q K -> qsum (weight corpus ip q) K == 1.
Proof.
  intros Hq. destruct (In_keys_get _ _ Hq) as [links Hget].
  pose proof (wf_corpus_keys _ Hwf) as Hnd.
  destruct (wf_corpus_links _ _ _ Hwf Hget) as [Hl Hincl].
  assert (HN : ~ len corpus == 0) by now apply len_nonzero.
  unfold weight, links_of. rewrite Hget.
  destruct links as [|l links]; simpl Nat.eqb; cbv iota.
  - rewrite qsum_const, len_keys. unfold ip. now field.
  - rewrite qsum_members by assumption.
    assert (HL : ~ len (l :: links) == 0) by (apply len_nonzero; discriminate).
    now field.
Qed.

Lemma choice_sum pr :
  incl K (Dict.keys pr) ->
  qsum (choice_of corpus pr ip) K == qsum (rank_of pr) K.
Proof.
  intros Hpr.
  rewrite (qsum_ext _ (fun p => qsum (fun q => rank_of pr q * weight corpus ip q p) K)).
  2:{ intros p _. now destruct (choice_of_ok corpus pr ip p Hpr) as [_ ->]. }
  rewrite qsum_exchange. apply qsum_ext. intros q Hq.
  rewrite qsum_scale, weight_sum by exact Hq. ring.
Qed.

(** [norm_factor] is [(1 - d) + d * (sum of the ranks)]. *)
Lemma norm_of_sum pr :
  incl K (Dict.keys pr) ->
  norm_of corpus pr ip rp d == (1 - d) + d * qsum (rank_of pr) K.
Proof.
  intros Hpr. unfold norm_of, sweep_rank. fold K.
  rewrite qsum_plus, qsum_const, qsum_scale, choice_sum, len_keys by exact Hpr.
  assert (HN : ~ len corpus == 0) by now apply len_nonzero.
  unfold rp. now field.
Qed.

Lemma norm_of_one pr :
  incl K (Dict.keys pr) -> qsum (rank_of pr) K == 1 ->
  norm_of corpus pr ip rp d == 1.
Proof.
  intros Hpr Hsum. rewrite norm_of_sum, Hsum by exact Hpr. ring.
Qed.

End Sweep.

(** After renormalisation the ranks sum to 1. *)
Lemma next_rank_sum corpus pr ip rp d :
  ~ norm_of corpus pr ip rp d == 0 ->
  qsum (next_rank corpus pr ip rp d) (Dict.keys corpus) == 1.
Proof.
  intros Hnorm. unfold next_rank, Qdiv. rewrite qsum_scale_r.
  fold (norm_of corpus pr ip rp d). now field.
Qed.

Lemma qsum_minus f g ks :
  qsum (fun k => f k - g k) ks == qsum f ks - qsum g ks.
Proof.
  induction ks as [|k ks IH].
  - rewrite !qsum_nil. ring.
  - rewrite !qsum_cons, IH. ring.
Qed.

Lemma Qmult_le_mono_l z x y : 0 <= z -> x <= y -> z * x <= z * y.
Proof.
  intros Hz Hxy. rewrite !(Qmult_comm z). now apply Qmult_le_compat_r.
Qed.

Section Contraction.

Variable corpus : corpus_t.
Variable d : Q.
Hypothesis Hwf : wf_corpus corpus = true.
Hypothesis Hne : corpus <> [].
Hypothesis Hd : 0 <= d.

Let K := Dict.keys corpus.
Let ip := 1 / len corpus.
Let rp := (1 - d) / len corpus.

Lemma next_rank_sweep a p :
  incl K (Dict.keys a) -> qsum (rank_of a) K == 1 ->
  next_rank corpus a ip rp d p
  == rp + d * qsum (fun q => rank_of a q * weight corpus ip q p) K.
Proof.
  intros Ha Hsa. unfold next_rank.
  pose proof (norm_of_one corpus d Hwf Hne a Ha Hsa) as Hn.
  fold ip rp in Hn. rewrite Hn.
  unfold sweep_rank.
  destruct (choice_of_ok corpus a ip p Ha) as [_ ->]. fold K. now field.
Qed.

Lemma next_rank_diff a b p :
  incl K (Dict.keys a) -> incl K (Dict.keys b) ->
  qsum (rank_of a) K == 1 -> qsum (rank_of b) K == 1 ->
  next_rank corpus a ip rp d p - next_rank corpus b ip rp d p
  == d * qsum (fun q => (rank_of a q - rank_of b q) * weight corpus ip q p) K.
Proof.
  intros Ha Hb Hsa Hsb.
  rewrite (next_rank_sweep a p Ha Hsa), (next_rank_sweep b p Hb Hsb).
  rewrite (qsum_ext (fun q => (rank_of a q - rank_of b q) * weight corpus ip q p)
             (fun q => rank_of a q * weight corpus ip q p
                       - rank_of b q * weight corpus ip q p))
    by (intros; ring).
  rewrite qsum_minus. ring.
Qed.

(** One sweep shrinks the total distance between two rank vectors by the
    damping factor. *)
Lemma next_rank_contract a b :
  incl K (Dict.keys a) -> incl K (Dict.keys b) ->
  qsum (rank_of a) K == 1 -> qsum (rank_of b) K == 1 ->
  qsum (fun p => Qabs (next_rank corpus a ip rp d p
                       - next_rank corpus b ip rp d p)) K
  <= d * total_change corpus a b.
Proof.
  intros Ha Hb Hsa Hsb.
  set (delta := fun q => Qabs (rank_of a q - rank_of b q)).
  apply Qle_trans
    with (y := qsum (fun p => d * qsum (fun q => delta q * weight corpus ip q p) K) K).
  - apply qsum_le. intros p _.
    rewrite (next_rank_diff a b p Ha Hb Hsa Hsb).
    rewrite Qabs_Qmult, (Qabs_pos d Hd).
    apply Qmult_le_mono_l; [exact Hd|].
    eapply Qle_trans; [apply qsum_abs|].
    apply qsum_le. intros q _. unfold delta.
    rewrite Qabs_Qmult.
    rewrite (Qabs_pos (weight corpus ip q p)) by now apply weight_nonneg.
    apply Qle_refl.
  - rewrite qsum_scale, qsum_exchange.
    apply Qmult_le_mono_l; [exact Hd|].
    unfold total_change. fold K. fold delta.
    apply Qle_lteq. right. apply qsum_ext. intros q Hq.
    rewrite qsum_scale.
    pose proof (weight_sum corpus Hwf Hne q Hq) as Hw.
    fold ip K in Hw. rewrite Hw. ring.
Qed.

End Contraction.

(** ** The [while] loop *)

Lemma Qgt_bool_false a b : Qgt_bool a b = false <-> a <= b.
Proof.
  unfold Qgt_bool. rewrite negb_false_iff. apply Qle_bool_iff.
Qed.

(** More fuel does not change the outcome of a loop that finished. *)
Lemma iterate_loop_more_fuel corpus ip rp d fuel : forall st r fuel',
  iterate_loop fuel corpus ip rp d st = Some r -> (fuel <= fuel')%nat ->
  iterate_loop fuel' corpus ip rp d st = Some r.
Proof.
  induction fuel as [|fuel IH]; intros st r fuel' Hrun Hle.
  - destruct fuel'; cbn [iterate_loop] in *;
      destruct (Qgt_bool (max_change st) (1 # 1000)); congruence.
  - destruct fuel' as [|fuel']; [lia|]. cbn [iterate_loop] in *.
    destruct (Qgt_bool (max_change st) (1 # 1000)); [|exact Hrun].
    destruct (iterate_body corpus ip rp d st) as [st'|e]; [|exact Hrun].
    apply IH; [exact Hrun | lia].
Qed.

Lemma iterates_more_fuel corpus ip rp d fuel : forall st r fuel',
  iterate_loop fuel corpus ip rp d st = Some r -> (fuel <= fuel')%nat ->
  iterates fuel' corpus ip rp d st = iterates fuel corpus ip rp d st.
Proof.
  induction fuel as [|fuel IH]; intros st r fuel' Hrun Hle.
  - destruct fuel'; cbn [iterate_loop iterates] in *;
      destruct (Qgt_bool (max_change st) (1 # 1000)); congruence.
  - destruct fuel' as [|fuel']; [lia|]. cbn [iterate_loop iterates] in *.
    destruct (Qgt_bool (max_change st) (1 # 1000)); [|reflexivity].
    destruct (iterate_body corpus ip rp d st) as [st'|e]; [|reflexivity].
    f_equal. apply (IH st' r); [exact Hrun | lia].
Qed.

Section Loop.

Variable corpus : corpus_t.
Variable d : Q.
Hypothesis Hwf : wf_corpus corpus = true.
Hypothesis Hne : corpus <> [].
Hypothesis Hd : 0 <= d.

Let K := Dict.keys corpus.
Let ip := 1 / len corpus.
Let rp := (1 - d) / len corpus.

Lemma iter_inv_sum st :
  iter_inv corpus st ->
  incl K (Dict.keys (page_rank st)) /\ qsum (rank_of (page_rank st)) K == 1.
Proof.
  intros (Hpr & _ & Hsum). fold K in Hpr. split.
  - rewrite Hpr. apply incl_refl.
  - rewrite <- Hpr, <- pysum_values; [exact Hsum|].
    rewrite Hpr. now apply wf_corpus_keys.
Qed.

(** A sweep from a state that satisfies the invariant does not raise, and
    the invariant holds again. *)
Lemma iterate_body_inv st :
  iter_inv corpus st ->
  iterate_body corpus ip rp d st = Ok (next_state corpus ip rp d st)
  /\ iter_inv corpus (next_state corpus ip rp d st).
Proof.
  intros Hinv. pose proof Hinv as (Hpr & Hnr & _).
  destruct (iter_inv_sum st Hinv) as [Hincl Hsum].
  pose proof (wf_corpus_keys _ Hwf) as Hnd.
  pose proof (norm_of_one corpus d Hwf Hne _ Hincl Hsum) as Hn.
  fold ip rp in Hn.
  assert (Hn0 : ~ norm_of corpus (page_rank st) ip rp d == 0).
  { rewrite Hn. discriminate. }
  split; [now apply iterate_body_ok|].
  unfold iter_inv, next_state. cbn [page_rank new_rank].
  split; [apply keys_tabulate|]. split.
  - unfold Dict.keys. rewrite map_map. cbn [fst].
    fold (Dict.keys (tabulate (next_rank corpus (page_rank st) ip rp d)
                       (Dict.keys corpus))).
    apply keys_tabulate.
  - rewrite values_tabulate.
    now apply (next_rank_sum corpus (page_rank st) ip rp d).
Qed.

End Loop.

(** ** Powers of the damping factor *)

Lemma decay_bounds d k : 0 <= d -> d <= 1 -> 0 <= decay d k /\ decay d k <= 1.
Proof.
  intros H0 H1. induction k as [|k [IH0 IH1]]; cbn [decay].
  - split; lra.
  - split.
    + now apply Qmult_le_0_compat.
    + apply Qle_trans with (y := d * 1); [now apply Qmult_le_mono_l | lra].
Qed.

Lemma decay_bernoulli d e k :
  0 <= d -> 0 <= e -> d * (1 + e) <= 1 ->
  decay d k * (1 + inject_Z (Z.of_nat k) * e) <= 1.
Proof.
  intros Hd He Hde.
  assert (Hd1 : d <= 1).
  { pose proof (Qmult_le_0_compat d e Hd He). lra. }
  induction k as [|k IH].
  - cbn [decay Z.of_nat]. change (inject_Z 0) with 0. lra.
  - destruct (decay_bounds d k Hd Hd1) as [Hx0 Hx1].
    rewrite Nat2Z.inj_succ. unfold Z.succ. rewrite inject_Z_plus.
    cbn [decay]. set (x := decay d k) in *.
    set (kk := inject_Z (Z.of_nat k)) in *.
    change (inject_Z 1) with 1.
    pose proof (Qmult_le_mono_l d _ _ Hd IH) as H1.
    assert (H2 : x * (d * e) <= 1 * (1 - d)).
    { apply Qle_trans with (y := x * (1 - d)).
      - apply Qmult_le_mono_l; [exact Hx0 | lra].
      - apply Qmult_le_compat_r; [exact Hx1 | lra]. }
    apply Qle_trans with (y := d * (x * (1 + kk * e)) + x * (d * e)).
    + apply Qle_lteq. right. ring.
    + lra.
Qed.

(** Any bound, multiplied by a high enough power of a damping factor of
    (0,1), falls below the threshold of the loop. *)
Lemma decay_small d B :
  valid_damping d -> 0 <= B -> exists k, B * decay d k <= 1 # 1000.
Proof.
  intros [Hd0 Hd1] HB.
  set (e := (1 - d) / d).
  assert (He : 0 < e).
  { unfold e. apply Qlt_shift_div_l; lra. }
  assert (Hde : d * (1 + e) <= 1).
  { apply Qle_lteq. right. unfold e. field. lra. }
  set (t := 1000 * B / e).
  assert (Ht : 0 <= t).
  { unfold t. apply Qle_shift_div_l; [exact He|]. lra. }
  exists (Z.to_nat (Qceiling t)).
  assert (Hc : (0 <= Qceiling t)%Z).
  { rewrite Zle_Qle. eapply Qle_trans; [exact Ht | apply Qle_ceiling]. }
  pose proof (decay_bernoulli d e (Z.to_nat (Qceiling t))
                (Qlt_le_weak _ _ Hd0) (Qlt_le_weak _ _ He) Hde) as Hb.
  rewrite Z2Nat.id in Hb by exact Hc.
  destruct (decay_bounds d (Z.to_nat (Qceiling t))
              (Qlt_le_weak _ _ Hd0) (Qlt_le_weak _ _ Hd1)) as [Hx0 Hx1].
  set (x := decay d (Z.to_nat (Qceiling t))) in *.
  assert (Hk : 1000 * B <= inject_Z (Qceiling t) * e).
  { apply Qle_trans with (y := t * e).
    - apply Qle_lteq. right. unfold t. field. lra.
    - apply Qmult_le_compat_r; [apply Qle_ceiling | lra]. }
  pose proof (Qmult_le_mono_l x _ _ Hx0 Hk) as Hp.
  apply Qle_trans with (y := (x * (1000 * B)) / 1000).
  - apply Qle_lteq. right. field.
  - apply Qle_shift_div_r; [reflexivity|]. lra.
Qed.

(** ** Termination of the [while] loop *)

Section Termination.

Variable corpus : corpus_t.
Variable d : Q.
Hypothesis Hwf : wf_corpus corpus = true.
Hypothesis Hne : corpus <> [].
Hypothesis Hd : 0 <= d.

Let K := Dict.keys corpus.
Let ip := 1 / len corpus.
Let rp := (1 - d) / len corpus.

Lemma max_change_next st :
  iter_inv corpus st ->
  max_change (next_state corpus ip rp d st) <= pending corpus ip rp d st.
Proof.
  intros (Hpr & _ & _). unfold pending, next_state. cbn [max_change page_rank].
  apply change_of_ok.
  - rewrite Hpr. apply incl_refl.
  - rewrite keys_tabulate. apply incl_refl.
Qed.

Lemma pending_next st :
  iter_inv corpus st ->
  pending corpus ip rp d (next_state corpus ip rp d st)
  <= d * pending corpus ip rp d st.
Proof.
  intros Hinv.
  destruct (iterate_body_inv corpus d Hwf Hne st Hinv) as [_ Hinv'].
  fold ip rp in Hinv'.
  destruct (iter_inv_sum corpus Hwf st Hinv) as [Ha Hsa].
  destruct (iter_inv_sum corpus Hwf _ Hinv') as [Hb Hsb].
  pose proof (next_rank_contract corpus d Hwf Hne Hd _ _ Ha Hb Hsa Hsb) as Hc.
  fold ip rp K in Hc.
  unfold pending at 1. unfold total_change at 1. fold K.
  eapply Qle_trans; [|exact Hc].
  apply Qle_lteq. right. apply qsum_ext. intros p Hp.
  set (st' := next_state corpus ip rp d st).
  unfold next_state at 1. cbn [page_rank].
  rewrite (rank_of_tabulate _ _ p Hp).
  unfold st' at 1. unfold next_state. cbn [page_rank].
  rewrite (rank_of_tabulate _ _ p Hp). reflexivity.
Qed.

(** Once the pending change times [d ^ k] is below the threshold, [k + 1]
    passes are enough. *)
Lemma iterate_loop_terminates k : forall st B,
  iter_inv corpus st ->
  pending corpus ip rp d st <= B ->
  B * decay d k <= 1 # 1000 ->
  exists st',
    iterate_loop (S k) corpus ip rp d st = Some (Ok st') /\ iter_inv corpus st'.
Proof.
  induction k as [|k IH]; intros st B Hinv HB Hsmall.
  - cbn [iterate_loop].
    destruct (Qgt_bool (max_change st) (1 # 1000)) eqn:E.
    + destruct (iterate_body_inv corpus d Hwf Hne st Hinv) as [Hb Hinv'].
      fold ip rp in Hb, Hinv'. rewrite Hb.
      exists (next_state corpus ip rp d st). split; [|exact Hinv'].
      assert (Hm : Qgt_bool (max_change (next_state corpus ip rp d st))
                     (1 # 1000) = false).
      { apply Qgt_bool_false. pose proof (max_change_next st Hinv).
        cbn [decay] in Hsmall. lra. }
      now rewrite Hm.
    + now exists st.
  - cbn [iterate_loop].
    destruct (Qgt_bool (max_change st) (1 # 1000)) eqn:E.
    + destruct (iterate_body_inv corpus d Hwf Hne st Hinv) as [Hb Hinv'].
      fold ip rp in Hb, Hinv'. rewrite Hb.
      apply (IH _ (d * B) Hinv').
      * eapply Qle_trans; [now apply pending_next|].
        now apply Qmult_le_mono_l.
      * cbn [decay] in Hsmall.
        apply Qle_trans with (y := B * (d * decay d k)); [|exact Hsmall].
        apply Qle_lteq. right. ring.
    + now exists st.
Qed.

End Termination.

(** ** The iterative engine *)

Lemma iterate_run_loop fuel corpus d :
  corpus <> [] ->
  iterate_run fuel corpus d
  = iterate_loop fuel corpus (1 / len corpus) ((1 - d) / len corpus) d
      (iterate_init corpus (1 / len corpus)).
Proof.
  intros Hne. unfold iterate_run.
  now rewrite !pydiv_ok by now apply len_nonzero.
Qed.

Lemma iterate_init_inv corpus :
  corpus <> [] -> NoDup (Dict.keys corpus) ->
  iter_inv corpus (iterate_init corpus (1 / len corpus)).
Proof.
  intros Hne Hnd. unfold iter_inv, iterate_init. cbn [page_rank new_rank].
  rewrite !comprehension_tabulate by exact Hnd.
  rewrite !keys_tabulate, values_tabulate. repeat split.
  change (pysum (map (fun _ : page => 1 / len corpus) (Dict.keys corpus)))
    with (qsum (fun _ => 1 / len corpus) (Dict.keys corpus)).
  rewrite qsum_const.
  assert (HK : len (Dict.keys corpus) == len corpus).
  { unfold len, Dict.keys. now rewrite length_map. }
  rewrite HK. field. now apply len_nonzero.
Qed.

Lemma total_change_nonneg corpus a b : 0 <= total_change corpus a b.
Proof.
  unfold total_change. apply qsum_nonneg. intros k _. apply Qabs_nonneg.
Qed.

(** With a well-formed corpus and a damping factor of (0,1) the loop ends:
    some amount of fuel gives a final state, which satisfies the
    invariant. *)
Lemma iterate_run_terminates corpus d :
  corpus <> [] -> wf_corpus corpus = true -> valid_damping d ->
  exists fuel st,
    iterate_run fuel corpus d = Some (Ok st) /\ iter_inv corpus st.
Proof.
  intros Hne Hwf Hd. pose proof Hd as [Hd0 Hd1].
  pose proof (wf_corpus_keys _ Hwf) as Hnd.
  set (st0 := iterate_init corpus (1 / len corpus)).
  set (B := pending corpus (1 / len corpus) ((1 - d) / len corpus) d st0).
  destruct (decay_small d B Hd) as [k Hk].
  { apply total_change_nonneg. }
  destruct (iterate_loop_terminates corpus d Hwf Hne (Qlt_le_weak _ _ Hd0)
              k st0 B) as (st' & Hrun & Hinv).
  - now apply iterate_init_inv.
  - apply Qle_refl.
  - exact Hk.
  - exists (S k), st'. split; [|exact Hinv].
    now rewrite iterate_run_loop.
Qed.

Lemma iterate_run_more_fuel corpus d fuel fuel' r :
  iterate_run fuel corpus d = Some r -> (fuel <= fuel')%nat ->
  iterate_run fuel' corpus d = Some r.
Proof.
  unfold iterate_run. intros Hrun Hle.
  destruct (pydiv (1 - d) (len corpus)) as [rp|e]; [|exact Hrun].
  destruct (pydiv 1 (len corpus)) as [ip|e]; [|exact Hrun].
  now apply (iterate_loop_more_fuel corpus ip rp d fuel).
Qed.

Lemma iterate_trace_more_fuel corpus d fuel fuel' r :
  iterate_run fuel corpus d = Some r -> (fuel <= fuel')%nat ->
  iterate_trace fuel' corpus d = iterate_trace fuel corpus d.
Proof.
  unfold iterate_run, iterate_trace. intros Hrun Hle.
  destruct (pydiv (1 - d) (len corpus)) as [rp|e]; [|reflexivity].
  destruct (pydiv 1 (len corpus)) as [ip|e]; [|reflexivity].
  now apply (iterates_more_fuel corpus ip rp d fuel _ r).
Qed.

Lemma iterate_pagerank_run fuel corpus d r :
  iterate_pagerank fuel corpus d = Some r ->
  exists x, iterate_run fuel corpus d = Some x
            /\ r = match x with Ok st => Ok (page_rank st) | Raise e => Raise e end.
Proof.
  unfold iterate_pagerank.
  destruct (iterate_run fuel corpus d) as [[st|e]|]; intros [= <-];
    eexists; split; reflexivity.
Qed.

Lemma iterate_pagerank_more_fuel corpus d fuel fuel' r :
  iterate_pagerank fuel corpus d = Some r -> (fuel <= fuel')%nat ->
  iterate_pagerank fuel' corpus d = Some r.
Proof.
  intros Hrun Hle. apply iterate_pagerank_run in Hrun as (x & Hx & ->).
  unfold iterate_pagerank.
  rewrite (iterate_run_more_fuel corpus d fuel fuel' x Hx Hle).
  destruct x; reflexivity.
Qed.

(** C7, as the code has it: read over exact rationals, [iterate_pagerank]
    terminates for every non-empty corpus satisfying the Graph invariants
    and every damping factor of (0,1): there is a number of passes of the
    [while] loop after which the loop condition is false and a distribution
    is returned.  The loop imposes no cap (any larger amount of fuel gives
    the same result); on binary64 floats its end is not guaranteed, as
    the section on the binary64 loop shows. *)
Theorem iterate_pagerank_terminates corpus d :
  corpus <> [] -> wf_corpus corpus = true -> valid_damping d ->
  exists fuel page_rank,
    iterate_pagerank fuel corpus d = Some (Ok page_rank) /\
    forall fuel', (fuel <= fuel')%nat ->
                  iterate_pagerank fuel' corpus d = Some (Ok page_rank).
Proof.
  intros Hne Hwf Hd.
  destruct (iterate_run_terminates corpus d Hne Hwf Hd) as (fuel & st & Hrun & _).
  assert (H : iterate_pagerank fuel corpus d = Some (Ok (page_rank st))).
  { unfold iterate_pagerank. now rewrite Hrun. }
  exists fuel, (page_rank st). split; [exact H|].
  intros fuel' Hle. now apply (iterate_pagerank_more_fuel corpus d fuel).
Qed.

Lemma iterate_pagerank_terminates_witness :
  exists fuel page_rank,
    iterate_pagerank fuel dangling3 DAMPING = Some (Ok page_rank) /\
    forall fuel', (fuel <= fuel')%nat ->
                  iterate_pagerank fuel' dangling3 DAMPING = Some (Ok page_rank).
Proof.
  apply (iterate_pagerank_terminates dangling3 DAMPING).
  - discriminate.
  - reflexivity.
  - split; reflexivity.
Defined.

(** ** The loop on binary64 floats *)

(** The two-page cycle with the float nearest to 0.85. *)
Example binary64_two_cycle :
  Binary64.iterate_pagerank Binary64.sum_plain 5 two_cycle
    0x1.b333333333333p-1%float
  = Some (Ok [("A"%string, 0.5%float); ("B"%string, 0.5%float)]).
Proof. vm_compute. reflexivity. Qed.

(** Two states that a sweep exchanges, both above the threshold, keep the
    loop running for ever. *)
Lemma binary64_cycle sum corpus ip rp d (a b : Binary64.state) :
  (forall i, Binary64.iterate_body sum corpus ip rp d (Binary64.set_iteration i a)
             = Ok (Binary64.set_iteration (S i) b)) ->
  (forall i, Binary64.iterate_body sum corpus ip rp d (Binary64.set_iteration i b)
             = Ok (Binary64.set_iteration (S i) a)) ->
  Binary64.gt (Binary64.max_change a) 0x1.0624dd2f1a9fcp-10%float = true ->
  Binary64.gt (Binary64.max_change b) 0x1.0624dd2f1a9fcp-10%float = true ->
  forall fuel i,
    Binary64.iterate_loop sum fuel corpus ip rp d (Binary64.set_iteration i a)
    = None
    /\ Binary64.iterate_loop sum fuel corpus ip rp d (Binary64.set_iteration i b)
       = None.
Proof.
  intros Hab Hba Ha Hb. induction fuel as [|fuel IH]; intros i;
    cbn [Binary64.iterate_loop Binary64.set_iteration Binary64.max_change];
    rewrite Ha, Hb.
  - split; reflexivity.
  - fold (Binary64.set_iteration i a). fold (Binary64.set_iteration i b).
    rewrite Hab, Hba. split; apply IH.
Qed.

(** On [star4] with damping [near_one] the states after 2 and after 3
    sweeps are exchanged by a sweep, with either [sum]. *)
Lemma star4_cycle_plain fuel i :
  Binary64.iterate_loop Binary64.sum_plain fuel star4
    (PrimFloat.div 1 (Binary64.len star4))
    (PrimFloat.div (PrimFloat.sub 1 near_one) (Binary64.len star4)) near_one
    (Binary64.set_iteration i (star4_state Binary64.sum_plain 2)) = None.
Proof.
  apply (binary64_cycle Binary64.sum_plain star4 _ _ near_one
           (star4_state Binary64.sum_plain 2) (star4_state Binary64.sum_plain 3)).
  - intros j. vm_compute. reflexivity.
  - intros j. vm_compute. reflexivity.
  - vm_compute. reflexivity.
  - vm_compute. reflexivity.
Qed.

Lemma star4_cycle_compensated fuel i :
  Binary64.iterate_loop Binary64.sum_compensated fuel star4
    (PrimFloat.div 1 (Binary64.len star4))
    (PrimFloat.div (PrimFloat.sub 1 near_one) (Binary64.len star4)) near_one
    (Binary64.set_iteration i (star4_state Binary64.sum_compensated 2)) = None.
Proof.
  apply (binary64_cycle Binary64.sum_compensated star4 _ _ near_one
           (star4_state Binary64.sum_compensated 2)
           (star4_state Binary64.sum_compensated 3)).
  - intros j. vm_compute. reflexivity.
  - intros j. vm_compute. reflexivity.
  - vm_compute. reflexivity.
  - vm_compute. reflexivity.
Qed.

Lemma star4_run_plain fuel :
  Binary64.iterate_run Binary64.sum_plain fuel star4 near_one = None.
Proof.
  destruct fuel as [|[|fuel]]; [vm_compute; reflexivity .. |].
  rewrite <- (star4_cycle_plain fuel 2). vm_compute. reflexivity.
Qed.

Lemma star4_run_compensated fuel :
  Binary64.iterate_run Binary64.sum_compensated fuel star4 near_one = None.
Proof.
  destruct fuel as [|[|fuel]]; [vm_compute; reflexivity .. |].
  rewrite <- (star4_cycle_compensated fuel 2). vm_compute. reflexivity.
Qed.

(** C7 as stated fails of the floats the code runs on: [star4] satisfies
    the Graph invariants and [near_one] lies in (0,1), yet from the second
    sweep on the ranks alternate between two vectors whose largest change
    is about 0.5, so the loop never ends, whatever the fuel and with either
    [sum]. *)
Lemma binary64_loop_never_ends :
  star4 <> [] /\ wf_corpus star4 = true /\
  PrimFloat.ltb 0 near_one = true /\ PrimFloat.ltb near_one 1 = true /\
  Binary64.page_rank (star4_state Binary64.sum_plain 2)
  = Binary64.page_rank (star4_state Binary64.sum_plain 4) /\
  ~ (exists fuel r,
       Binary64.iterate_pagerank Binary64.sum_plain fuel star4 near_one
       = Some r) /\
  ~ (exists fuel r,
       Binary64.iterate_pagerank Binary64.sum_compensated fuel star4 near_one
       = Some r).
Proof.
  split; [discriminate|]. split; [reflexivity|].
  split; [reflexivity|]. split; [reflexivity|].
  split; [vm_compute; reflexivity|]. split.
  - intros (fuel & r & H). unfold Binary64.iterate_pagerank in H.
    now rewrite star4_run_plain in H.
  - intros (fuel & r & H). unfold Binary64.iterate_pagerank in H.
    now rewrite star4_run_compensated in H.
Qed.

(** ** Renormalisation *)







(** ** The rank formula *)

Lemma qsum_filter_fun f (b : page -> bool) ks :
  qsum (fun k => if b k then f k else 0) ks == qsum f (filter b ks).
Proof.
  induction ks as [|k ks IH].
  - reflexivity.
  - rewrite qsum_cons, IH. simpl filter. destruct (b k).
    + rewrite qsum_cons. reflexivity.
    + ring.
Qed.

Lemma weight_split corpus r q p :
  r * weight corpus (1 / len corpus) q p
  == (if mem p (links_of corpus q) then r / len (links_of corpus q) else 0)
     + (if (List.length (links_of corpus q) =? 0)%nat
        then r * (1 / len corpus) else 0).
Proof.
  unfold weight. destruct (links_of corpus q) as [|l links] eqn:E.
  - simpl. ring.
  - simpl Nat.eqb. cbv iota.
    assert (HL : ~ len (l :: links) == 0) by (apply len_nonzero; discriminate).
    destruct (mem p (l :: links)); [now field | ring].
Qed.

Lemma sweep_rank_spec corpus pr d p :
  incl (Dict.keys corpus) (Dict.keys pr) ->
  sweep_rank corpus pr (1 / len corpus) ((1 - d) / len corpus) d p
  == spec_new_rank corpus (rank_of pr) d p.
Proof.
  intros Hpr. unfold sweep_rank, spec_new_rank.
  destruct (choice_of_ok corpus pr (1 / len corpus) p Hpr) as [_ ->].
  rewrite (qsum_ext _ _ _ (fun q _ => weight_split corpus (rank_of pr q) q p)).
  rewrite qsum_plus.
  rewrite (qsum_filter_fun (fun q => rank_of pr q / len (links_of corpus q))
             (fun q => mem p (links_of corpus q))).
  rewrite (qsum_filter_fun (fun q => rank_of pr q * (1 / len corpus))
             (fun q => (List.length (links_of corpus q) =? 0)%nat)).
  reflexivity.
Qed.

Lemma last_cons_default {A} (l : list A) x default :
  last (x :: l) default = last l x.
Proof.
  revert x default. induction l as [|y l IH]; intros x default; [reflexivity|].
  change (last (x :: y :: l) default) with (last (y :: l) default).
  now rewrite !IH.
Qed.

(** The rank dicts a run assigns to [page_rank] follow one another by the
    rank formula, and the run returns the last of them. *)
Lemma iterate_loop_chain corpus d :
  corpus <> [] -> wf_corpus corpus = true ->
  forall fuel st,
    iter_inv corpus st ->
    chain (is_sweep corpus d) (page_rank st)
      (iterates fuel corpus (1 / len corpus) ((1 - d) / len corpus) d st)
    /\ forall r,
         iterate_loop fuel corpus (1 / len corpus) ((1 - d) / len corpus) d st
         = Some r ->
         exists st',
           r = Ok st'
           /\ page_rank st'
              = last (iterates fuel corpus (1 / len corpus)
                        ((1 - d) / len corpus) d st)
                  (page_rank st).
Proof.
  intros Hne Hwf.
  induction fuel as [|fuel IH]; intros st Hinv; cbn [iterates iterate_loop];
    destruct (Qgt_bool (max_change st) (1 # 1000)).
  - split; [exact I|]. discriminate.
  - split; [exact I|]. intros r [= <-]. now exists st.
  - destruct (iterate_body_inv corpus d Hwf Hne st Hinv) as [Hb Hinv'].
    rewrite Hb. destruct (IH _ Hinv') as [Hchain Hlast].
    split.
    + cbn [chain]. split; [|exact Hchain].
      exists (sweep_rank corpus (page_rank st) (1 / len corpus)
                ((1 - d) / len corpus) d).
      split; [|reflexivity].
      intros p _. apply sweep_rank_spec.
      destruct Hinv as (Hk & _). rewrite Hk. apply incl_refl.
    + intros r Hr. destruct (Hlast r Hr) as (st' & -> & Hl).
      exists st'. split; [reflexivity|]. rewrite Hl.
      symmetry. apply last_cons_default.
  - split; [exact I|]. intros r [= <-]. now exists st.
Qed.

(** C5: in every sweep of [iterate_pagerank] the new rank of each page [p]
    is computed, before renormalisation, as [(1-d)/N + d * (sum over the
    pages q that link to p of rank(q)/outdegree(q))], where a page [q] of
    outdegree 0 contributes [rank(q) * (1/N)] to every page and [rank] is
    the previous iterate.  The rank dicts a run assigns to [page_rank],
    starting from the initial [1/N], follow one another in this way (each
    is the formula's ranks divided by their sum); the run returns the last
    of them; and a sweep is made as soon as [1/N > 0.001]. *)
Theorem new_rank_formula corpus d fuel :
  corpus <> [] -> wf_corpus corpus = true ->
  chain (is_sweep corpus d)
    (tabulate (fun _ => 1 / len corpus) (Dict.keys corpus))
    (iterate_trace fuel corpus d) /\
  (forall r,
     iterate_pagerank fuel corpus d = Some r ->
     r = Ok (last (iterate_trace fuel corpus d)
               (tabulate (fun _ => 1 / len corpus) (Dict.keys corpus)))) /\
  (1 # 1000 < 1 / len corpus -> (0 < fuel)%nat ->
   iterate_trace fuel corpus d <> []).
Proof.
  intros Hne Hwf. pose proof (wf_corpus_keys _ Hwf) as Hnd.
  pose proof (iterate_init_inv corpus Hne Hnd) as Hinv.
  destruct (iterate_loop_chain corpus d Hne Hwf fuel _ Hinv) as [Hchain Hlast].
  assert (Hinit : page_rank (iterate_init corpus (1 / len corpus))
                  = tabulate (fun _ => 1 / len corpus) (Dict.keys corpus)).
  { cbn [iterate_init page_rank]. now apply comprehension_tabulate. }
  assert (Htrace : iterate_trace fuel corpus d
                   = iterates fuel corpus (1 / len corpus)
                       ((1 - d) / len corpus) d
                       (iterate_init corpus (1 / len corpus))).
  { unfold iterate_trace. now rewrite !pydiv_ok by now apply len_nonzero. }
  rewrite Htrace, <- Hinit. split; [exact Hchain|]. split.
  - intros r Hr. apply iterate_pagerank_run in Hr as (x & Hx & ->).
    rewrite iterate_run_loop in Hx by exact Hne.
    destruct (Hlast x Hx) as (st' & -> & Hl). now rewrite Hl.
  - intros Hbig Hfuel. destruct fuel as [|fuel]; [lia|].
    cbn [iterates].
    assert (Hgt : Qgt_bool (max_change (iterate_init corpus (1 / len corpus)))
                    (1 # 1000) = true).
    { unfold Qgt_bool. apply negb_true_iff.
      destruct (Qle_bool _ _) eqn:E; [|reflexivity].
      apply Qle_bool_iff in E. cbn [iterate_init max_change] in E.
      exfalso. apply (Qlt_irrefl (1 # 1000)).
      eapply Qlt_le_trans; eassumption. }
    rewrite Hgt.
    destruct (iterate_body_inv corpus d Hwf Hne _ Hinv) as [Hb _].
    rewrite Hb. discriminate.
Qed.

Lemma new_rank_formula_witness :
  chain (is_sweep dangling3 DAMPING)
    (tabulate (fun _ => 1 / len dangling3) (Dict.keys dangling3))
    (iterate_trace 2 dangling3 DAMPING) /\
  (forall r,
     iterate_pagerank 2 dangling3 DAMPING = Some r ->
     r = Ok (last (iterate_trace 2 dangling3 DAMPING)
               (tabulate (fun _ => 1 / len dangling3) (Dict.keys dangling3)))) /\
  (1 # 1000 < 1 / len dangling3 -> (0 < 2)%nat ->
   iterate_trace 2 dangling3 DAMPING <> []).
Proof.
  apply (new_rank_formula dangling3 DAMPING 2).
  - discriminate.
  - reflexivity.
Defined.

(** ** Determinism *)

(** C8: [iterate_pagerank] is deterministic.  The embedded function takes
    no random source and no state, so equal inputs give equal outputs; and
    the amount of fuel, the only parameter the model adds, does not matter:
    two runs that finish assign the same sequence of rank dicts to
    [page_rank] and return the same outcome. *)
Theorem iterate_pagerank_deterministic corpus d fuel1 fuel2 r1 r2 :
  iterate_pagerank fuel1 corpus d = Some r1 ->
  iterate_pagerank fuel2 corpus d = Some r2 ->
  r1 = r2 /\ iterate_trace fuel1 corpus d = iterate_trace fuel2 corpus d.
Proof.
  intros H1 H2.
  destruct (Nat.le_ge_cases fuel1 fuel2) as [Hle|Hle].
  - split.
    + pose proof (iterate_pagerank_more_fuel corpus d fuel1 fuel2 r1 H1 Hle).
      congruence.
    + apply iterate_pagerank_run in H1 as (x & Hx & _).
      symmetry. now apply (iterate_trace_more_fuel corpus d fuel1 fuel2 x).
  - split.
    + pose proof (iterate_pagerank_more_fuel corpus d fuel2 fuel1 r2 H2 Hle).
      congruence.
    + apply iterate_pagerank_run in H2 as (x & Hx & _).
      now apply (iterate_trace_more_fuel corpus d fuel2 fuel1 x).
Qed.

Lemma iterate_pagerank_deterministic_witness :
  exists r1 r2,
    iterate_pagerank 1 two_cycle DAMPING = Some r1 /\
    iterate_pagerank 4 two_cycle DAMPING = Some r2 /\
    r1 = r2 /\
    iterate_trace 1 two_cycle DAMPING = iterate_trace 4 two_cycle DAMPING.
Proof.
  eexists. eexists.
  assert (H1 : iterate_pagerank 1 two_cycle DAMPING
               = Some (Ok [("A"%string, 32000000000000 # 64000000000000);
                           ("B"%string, 32000000000000 # 64000000000000)]))
    by (vm_compute; reflexivity).
  assert (H2 : iterate_pagerank 4 two_cycle DAMPING
               = Some (Ok [("A"%string, 32000000000000 # 64000000000000);
                           ("B"%string, 32000000000000 # 64000000000000)]))
    by (vm_compute; reflexivity).
  split; [exact H1|]. split; [exact H2|].
  exact (iterate_pagerank_deterministic two_cycle DAMPING 1 4 _ _ H1 H2).
Defined.

(** ** Configurations outside the documented ranges *)

Lemma Qabs_zero_eq a b : a == b -> Qabs (a - b) == 0.
Proof.
  intros H. rewrite H. setoid_replace (b - b) with 0 by ring. reflexivity.
Qed.

(** With damping factor 0 the first sweep gives every page [1/N] again. *)
Lemma iterate_pagerank_zero_damping corpus :
  corpus <> [] -> NoDup (Dict.keys corpus) ->
  exists page_rank,
    iterate_pagerank 1 corpus 0 = Some (Ok page_rank) /\
    Dict.keys page_rank = Dict.keys corpus /\
    forall p v, Dict.get page_rank p = Some v -> v == 1 / len corpus.
Proof.
  intros Hne Hnd.
  set (ip := 1 / len corpus). set (rp := (1 - 0) / len corpus).
  set (st0 := iterate_init corpus ip).
  assert (HN : ~ len corpus == 0) by now apply len_nonzero.
  assert (HK : len (Dict.keys corpus) == len corpus).
  { unfold len, Dict.keys. now rewrite length_map. }
  assert (Hpr0 : page_rank st0 = tabulate (fun _ => ip) (Dict.keys corpus)).
  { unfold st0, iterate_init. cbn [page_rank].
    now apply comprehension_tabulate. }
  assert (Hnr0 : Dict.keys (new_rank st0) = Dict.keys corpus).
  { unfold st0, iterate_init. cbn [new_rank].
    rewrite comprehension_tabulate by exact Hnd. apply keys_tabulate. }
  assert (Hget : forall (f : page -> Q) p v,
             Dict.get (tabulate f (Dict.keys corpus)) p = Some v ->
             v = f p).
  { intros f p v Hv. pose proof (get_In_keys _ _ _ Hv) as Hin.
    rewrite keys_tabulate in Hin. rewrite get_tabulate in Hv by exact Hin.
    congruence. }
  unfold iterate_pagerank. rewrite iterate_run_loop by exact Hne.
  fold ip rp st0. cbn [iterate_loop].
  destruct (Qgt_bool (max_change st0) (1 # 1000)).
  - assert (Hnorm : norm_of corpus (page_rank st0) ip rp 0 == 1).
    { unfold norm_of, sweep_rank. rewrite qsum_plus, qsum_const, qsum_scale, HK.
      unfold rp. now field. }
    assert (Hnext : forall p, next_rank corpus (page_rank st0) ip rp 0 p == ip).
    { intros p. unfold next_rank. rewrite Hnorm. unfold sweep_rank, rp, ip.
      now field. }
    rewrite iterate_body_ok;
      [|exact Hnd|rewrite Hpr0; apply keys_tabulate|exact Hnr0
       |rewrite Hnorm; discriminate].
    assert (Hm : Qgt_bool (max_change (next_state corpus ip rp 0 st0))
                   (1 # 1000) = false).
    { apply Qgt_bool_false. unfold next_state. cbn [max_change page_rank].
      destruct (change_of_ok corpus (page_rank st0)
                  (tabulate (next_rank corpus (page_rank st0) ip rp 0)
                     (Dict.keys corpus))) as (_ & _ & Hle).
      - rewrite Hpr0, keys_tabulate. apply incl_refl.
      - rewrite keys_tabulate. apply incl_refl.
      - eapply Qle_trans; [exact Hle|].
        apply Qle_trans with (y := 0); [|discriminate].
        unfold total_change.
        rewrite (qsum_ext _ (fun _ => 0)); [rewrite qsum_zero; apply Qle_refl|].
        intros p Hp. apply Qabs_zero_eq.
        rewrite (rank_of_tabulate _ _ p Hp).
        assert (Hr : rank_of (page_rank st0) p = ip).
        { rewrite Hpr0. now apply rank_of_tabulate. }
        rewrite Hr. symmetry. apply Hnext. }
    rewrite Hm. eexists. split; [reflexivity|].
    unfold next_state. cbn [page_rank]. split; [apply keys_tabulate|].
    intros p v Hv. apply Hget in Hv. rewrite Hv. apply Hnext.
  - eexists. split; [reflexivity|]. rewrite Hpr0.
    split; [apply keys_tabulate|].
    intros p v Hv. apply Hget in Hv. rewrite Hv. reflexivity.
Qed.

(** C9, as the code has it: the engines make no check of the configuration
    and report no error for a configuration outside the documented ranges.
    On a non-empty corpus, [sample_pagerank] with a sample count [n <= 0]
    returns the empty dict whatever the damping factor (in (0,1) or not),
    and [iterate_pagerank] with damping factor 0 returns the uniform
    distribution [1/N]. *)
Theorem no_configuration_check r corpus d n :
  corpus <> [] ->
  nodupb (Dict.keys corpus) = true ->
  valid_rng r -> (n <= 0)%Z ->
  sample_pagerank r corpus d n = Ok [] /\
  exists page_rank,
    iterate_pagerank 1 corpus 0 = Some (Ok page_rank) /\
    Dict.keys page_rank = Dict.keys corpus /\
    forall p v, Dict.get page_rank p = Some v -> v == 1 / len corpus.
Proof.
  intros Hne Hnd Hr Hn. apply nodupb_NoDup in Hnd. split.
  - apply sample_pagerank_no_visit; [exact Hne | exact Hr | lia].
  - now apply iterate_pagerank_zero_damping.
Qed.

Lemma no_configuration_check_witness :
  sample_pagerank zeros two_cycle 2 (-3) = Ok [] /\
  exists page_rank,
    iterate_pagerank 1 two_cycle 0 = Some (Ok page_rank) /\
    Dict.keys page_rank = Dict.keys two_cycle /\
    forall p v, Dict.get page_rank p = Some v -> v == 1 / len two_cycle.
Proof.
  apply (no_configuration_check zeros two_cycle 2 (-3)%Z).
  - discriminate.
  - reflexivity.
  - intros i. split; [apply Qle_refl | reflexivity].
  - lia.
Defined.

(** C9 as stated fails: with sample count 0, and with damping factor 0, the
    engines return a result instead of reporting an error, and what
    [sample_pagerank] returns is not a complete distribution. *)
Lemma invalid_configuration_accepted :
  ~ (forall r corpus d n fuel,
       corpus <> [] -> wf_corpus corpus = true -> valid_rng r ->
       ~ valid_damping d \/ (n <= 0)%Z ->
       (exists e, sample_pagerank r corpus d n = Raise e) /\
       (~ valid_damping d ->
        exists e, iterate_pagerank fuel corpus d = Some (Raise e))).
Proof.
  intros H.
  destruct (H zeros two_cycle 0 0%Z 1%nat) as [[e He] _].
  - discriminate.
  - reflexivity.
  - exact valid_rng_zeros.
  - right. lia.
  - vm_compute in He. discriminate He.
Qed.

(** * Further properties of the code *)

(** ** [transition_model]: errors and probabilities *)

(** X1: [transition_model] raises [KeyError] exactly when the page is not a
    key of the corpus; for a page of the corpus it returns, whatever the
    damping factor, a dict with the keys of the corpus in the same order. *)
Theorem transition_model_keyerror corpus page d :
  nodupb (Dict.keys corpus) = true ->
  (In page (Dict.keys corpus) ->
   exists prob_dist,
     transition_model corpus page d = Ok prob_dist /\
     Dict.keys prob_dist = Dict.keys corpus) /\
  (~ In page (Dict.keys corpus) ->
   transition_model corpus page d = Raise KeyError).
Proof.
  intros Hnd. apply nodupb_NoDup in Hnd. split.
  - intros Hin. destruct (In_keys_get _ _ Hin) as [links Hget].
    eexists. split; [exact (transition_model_tabulate _ _ _ _ Hnd Hget)|].
    apply keys_tabulate.
  - intros Hnin. unfold transition_model, Dict.getitem.
    now rewrite (get_None _ _ Hnin).
Qed.

Lemma transition_model_keyerror_witness :
  (In "C"%string (Dict.keys dangling3) ->
   exists prob_dist,
     transition_model dangling3 "C"%string DAMPING = Ok prob_dist /\
     Dict.keys prob_dist = Dict.keys dangling3) /\
  (~ In "C"%string (Dict.keys dangling3) ->
   transition_model dangling3 "C"%string DAMPING = Raise KeyError).
Proof.
  apply (transition_model_keyerror dangling3 "C"%string DAMPING). reflexivity.
Defined.

(** X2: for every page of a well-formed corpus, with or without outgoing
    links, and every damping factor of (0,1), [transition_model] returns a
    probability distribution in which every page of the corpus has a
    strictly positive probability, and the probabilities sum to 1. *)
Theorem transition_model_distribution corpus page d :
  wf_corpus corpus = true ->
  In page (Dict.keys corpus) ->
  valid_damping d ->
  exists prob_dist,
    transition_model corpus page d = Ok prob_dist /\
    (forall p, In p (Dict.keys corpus) ->
               exists v, Dict.get prob_dist p = Some v /\ 0 < v) /\
    pysum (Dict.values prob_dist) == 1.
Proof.
  intros Hwf Hin Hd. pose proof (wf_corpus_keys _ Hwf) as Hnd.
  destruct (In_keys_get _ _ Hin) as [links Hget].
  assert (Hne : corpus <> []) by (intros ->; discriminate).
  eexists. split; [exact (transition_model_tabulate _ _ _ _ Hnd Hget)|]. split.
  - intros p Hp. exists (transition_value corpus links d p).
    split; [now apply get_tabulate|].
    now apply transition_value_pos.
  - rewrite values_tabulate. now apply (transition_value_sum corpus page).
Qed.

Lemma transition_model_distribution_witness :
  exists prob_dist,
    transition_model dangling3 "B"%string DAMPING = Ok prob_dist /\
    (forall p, In p (Dict.keys dangling3) ->
               exists v, Dict.get prob_dist p = Some v /\ 0 < v) /\
    pysum (Dict.values prob_dist) == 1.
Proof.
  apply (transition_model_distribution dangling3 "B"%string DAMPING).
  - reflexivity.
  - right. now left.
  - split; reflexivity.
Defined.

(** ** [sample_pagerank]: errors and bounds *)

Lemma sample_step_wf corpus d r page pr :
  wf_corpus corpus = true -> In page (Dict.keys corpus) ->
  exists page',
    sample_step corpus d (r, page, pr)
    = Ok (snd (random r), page', record_visit pr page')
    /\ In page' (Dict.keys corpus).
Proof.
  intros Hwf Hin. pose proof (wf_corpus_keys _ Hwf) as Hnd.
  destruct (In_keys_get _ _ Hin) as [links Hget].
  unfold sample_step. rewrite (transition_model_tabulate _ _ _ _ Hnd Hget).
  simpl bind. rewrite keys_tabulate, values_tabulate.
  destruct (random_choices_pop_ok (Dict.keys corpus)
              (map (transition_value corpus links d) (Dict.keys corpus)) r)
    as (x & Hx & Hxin).
  - apply length_map.
  - change (0 < qsum (transition_value corpus links d) (Dict.keys corpus)).
    rewrite (transition_value_sum corpus page links d Hwf Hget). reflexivity.
  - rewrite Hx. simpl bind. exists x. split; [|exact Hxin].
    unfold Dict.has, Dict.getitem, record_visit.
    destruct (Dict.get pr x); reflexivity.
Qed.

Lemma sample_loop_wf corpus d count :
  wf_corpus corpus = true ->
  forall r page pr, In page (Dict.keys corpus) ->
  exists r' page',
    sample_loop corpus d count (r, page, pr)
    = Ok (r', page',
          fold_left record_visit (sample_visits corpus d count (r, page, pr)) pr)
    /\ List.length (sample_visits corpus d count (r, page, pr)) = count
    /\ Forall (fun p => In p (Dict.keys corpus))
         (sample_visits corpus d count (r, page, pr)).
Proof.
  intros Hwf. induction count as [|count IH]; intros r page pr Hin;
    cbn [sample_loop sample_visits].
  - exists r, page. repeat split. constructor.
  - destruct (sample_step_wf corpus d r page pr Hwf Hin) as (page' & Hs & Hin').
    rewrite Hs. cbn [bind fst snd fold_left List.length].
    destruct (IH (snd (random r)) page' (record_visit pr page') Hin')
      as (r' & page'' & Hl & Hlen & Hall).
    exists r', page''. split; [exact Hl|]. split.
    + now rewrite Hlen.
    + constructor; assumption.
Qed.

Lemma sample_pagerank_never_raises_aux r corpus d n :
  corpus <> [] -> wf_corpus corpus = true -> valid_rng r ->
  sample_pagerank r corpus d n = Ok (normalize n (tally (drawn r corpus d n)))
  /\ List.length (drawn r corpus d n) = Z.to_nat (n - 1).
Proof.
  intros Hne Hwf Hr. unfold sample_pagerank, drawn.
  destruct (random_choice_ok (Dict.keys corpus) r) as (x & Hx & Hin).
  - destruct corpus; [contradiction | discriminate].
  - apply Hr.
  - rewrite Hx. cbn [bind fst snd].
    destruct (sample_loop_wf corpus d (Z.to_nat (n - 1)) Hwf
                (snd (random r)) x [] Hin) as (r' & page' & Hl & Hlen & Hall).
    rewrite Hl. cbn [bind].
    fold (tally (sample_visits corpus d (Z.to_nat (n - 1))
                   (snd (random r), x, []))).
    split; [|exact Hlen].
    apply normalize_loop; [apply tally_spec|].
    destruct (Z.eq_dec n 0) as [->|Hn]; [|now right].
    left. reflexivity.
Qed.

(** X3: on a non-empty well-formed corpus [sample_pagerank] never raises,
    for every damping factor from 0 to 1 (bounds included) and whatever the
    sample count (positive or not): the weights of every draw sum to 1, so
    [random.choices] accepts them.  It returns the counters of the pages it
    drew, each divided by [n]. *)
Theorem sample_pagerank_never_raises r corpus d n :
  corpus <> [] -> wf_corpus corpus = true -> valid_rng r ->
  0 <= d -> d <= 1 ->
  sample_pagerank r corpus d n = Ok (normalize n (tally (drawn r corpus d n)))
  /\ List.length (drawn r corpus d n) = Z.to_nat (n - 1).
Proof.
  intros Hne Hwf Hr _ _. now apply sample_pagerank_never_raises_aux.
Qed.

Lemma sample_pagerank_never_raises_witness :
  sample_pagerank zeros dangling3 1 (-3)
  = Ok (normalize (-3) (tally (drawn zeros dangling3 1 (-3))))
  /\ List.length (drawn zeros dangling3 1 (-3)) = Z.to_nat (-3 - 1).
Proof.
  apply (sample_pagerank_never_raises zeros dangling3 1 (-3)).
  - discriminate.
  - reflexivity.
  - intros i. split; [apply Qle_refl | reflexivity].
  - discriminate.
  - apply Qle_refl.
Defined.

(** X4: for a sample count [n >= 1] every value of the result lies strictly
    between 0 and 1, and the result has at most [n - 1] entries and at most
    as many as the corpus has pages. *)
Theorem sample_pagerank_bounds r corpus d n :
  corpus <> [] ->
  nodupb (Dict.keys corpus) = true ->
  valid_damping d -> valid_rng r -> (1 <= n)%Z ->
  exists page_rank,
    sample_pagerank r corpus d n = Ok page_rank /\
    (forall p v, Dict.get page_rank p = Some v -> 0 < v /\ v < 1) /\
    (List.length page_rank <= Z.to_nat (n - 1))%nat /\
    (List.length page_rank <= List.length corpus)%nat.
Proof.
  intros Hne Hnd Hd Hr Hn. apply nodupb_NoDup in Hnd.
  destruct (sample_pagerank_normalized r corpus d n Hne Hnd Hd Hr Hn)
    as (Hs & Hlen & Hall).
  destruct (tally_spec (drawn r corpus d n)) as (Hnd' & Hkeys & _).
  eexists. split; [exact Hs|].
  assert (Hl : List.length (normalize n (tally (drawn r corpus d n)))
               = List.length (Dict.keys (tally (drawn r corpus d n)))).
  { unfold normalize, Dict.keys. now rewrite !length_map. }
  split; [|split].
  - intros p v Hv. apply normalize_tally_entry in Hv as [Hc Hv].
    assert (Hb : (visits_of (drawn r corpus d n) p <= Z.to_nat (n - 1))%nat).
    { rewrite <- Hlen. apply count_occ_bound. }
    assert (Hn0 : 0 < inject_Z n).
    { change 0 with (inject_Z 0). rewrite <- Zlt_Qlt. lia. }
    rewrite Hv. split.
    + apply Qlt_shift_div_l; [exact Hn0|]. rewrite Qmult_0_l.
      change 0 with (inject_Z 0). rewrite <- Zlt_Qlt. lia.
    + apply Qlt_shift_div_r; [exact Hn0|]. rewrite Qmult_1_l.
      rewrite <- Zlt_Qlt. lia.
  - rewrite Hl, <- Hlen. apply NoDup_incl_length; [exact Hnd'|].
    intros p Hp. now apply Hkeys.
  - rewrite Hl. replace (List.length corpus) with (List.length (Dict.keys corpus))
      by (unfold Dict.keys; apply length_map).
    apply NoDup_incl_length; [exact Hnd'|].
    intros p Hp. apply Hkeys in Hp. rewrite Forall_forall in Hall. now apply Hall.
Qed.

Lemma sample_pagerank_bounds_witness :
  exists page_rank,
    sample_pagerank zeros dangling3 DAMPING 5 = Ok page_rank /\
    (forall p v, Dict.get page_rank p = Some v -> 0 < v /\ v < 1) /\
    (List.length page_rank <= Z.to_nat (5 - 1))%nat /\
    (List.length page_rank <= List.length dangling3)%nat.
Proof.
  apply (sample_pagerank_bounds zeros dangling3 DAMPING 5).
  - discriminate.
  - reflexivity.
  - split; reflexivity.
  - intros i. split; [apply Qle_refl | reflexivity].
  - lia.
Defined.

Lemma pydiv_zero_len {A} a : pydiv a (len (@nil A)) = Raise ZeroDivisionError.
Proof. reflexivity. Qed.

(** X5: on the empty corpus both engines fail, whatever the other
    arguments: [sample_pagerank] with [IndexError] from [random.choice],
    [iterate_pagerank] with [ZeroDivisionError] from the division by the
    number of pages, before any sweep. *)
Theorem empty_corpus_errors r d n fuel :
  sample_pagerank r [] d n = Raise IndexError /\
  iterate_pagerank fuel [] d = Some (Raise ZeroDivisionError) /\
  iterate_trace fuel [] d = [].
Proof.
  split; [reflexivity|]. split.
  - unfold iterate_pagerank, iterate_run. now rewrite pydiv_zero_len.
  - unfold iterate_trace. now rewrite pydiv_zero_len.
Qed.

(** ** [iterate_pagerank]: invariants of the loop *)

(** An invariant of the sweep is an invariant of the loop, and the loop
    leaves with [max_change <= 0.001]. *)
Lemma iterate_loop_invariant (J : iter_state -> Prop) corpus ip rp d :
  (forall st, J st ->
     exists st', iterate_body corpus ip rp d st = Ok st' /\ J st') ->
  forall fuel st r,
    J st -> iterate_loop fuel corpus ip rp d st = Some r ->
    exists st', r = Ok st' /\ J st' /\ max_change st' <= 1 # 1000.
Proof.
  intros Hstep. induction fuel as [|fuel IH]; intros st r HJ Hrun;
    cbn [iterate_loop] in Hrun;
    destruct (Qgt_bool (max_change st) (1 # 1000)) eqn:E.
  - discriminate.
  - injection Hrun as <-. exists st. rewrite Qgt_bool_false in E. auto.
  - destruct (Hstep st HJ) as (st1 & Hb & HJ1). rewrite Hb in Hrun.
    now apply (IH st1).
  - injection Hrun as <-. exists st. rewrite Qgt_bool_false in E. auto.
Qed.

Lemma iterate_body_iteration corpus ip rp d st st' :
  iterate_body corpus ip rp d st = Ok st' -> iteration st' = S (iteration st).
Proof.
  unfold iterate_body. intros Hb.
  destruct (for_each _ (Dict.keys corpus) (new_rank st)) as [nr|]; [|discriminate].
  cbn [bind] in Hb.
  destruct (map_result number (Dict.values nr)) as [ranks|]; [|discriminate].
  cbn [bind] in Hb.
  destruct (map_result _ nr) as [new|]; [|discriminate].
  cbn [bind] in Hb.
  destruct (for_each _ (Dict.keys corpus) 0) as [mc|]; [|discriminate].
  cbn [bind] in Hb. injection Hb as <-. reflexivity.
Qed.

(** The variable [iteration] counts the sweeps, at most one per unit of
    fuel. *)
Lemma iterate_loop_iteration corpus ip rp d fuel : forall st st',
  iterate_loop fuel corpus ip rp d st = Some (Ok st') ->
  (iteration st' <= iteration st + fuel)%nat.
Proof.
  induction fuel as [|fuel IH]; intros st st' Hrun;
    cbn [iterate_loop] in Hrun;
    destruct (Qgt_bool (max_change st) (1 # 1000)).
  - discriminate.
  - injection Hrun as <-. lia.
  - destruct (iterate_body corpus ip rp d st) as [st1|] eqn:Hb; [|discriminate].
    apply IH in Hrun. apply iterate_body_iteration in Hb. lia.
  - injection Hrun as <-. lia.
Qed.

Lemma iterate_pagerank_finished corpus d fuel r :
  corpus <> [] -> wf_corpus corpus = true ->
  iterate_pagerank fuel corpus d = Some r ->
  exists page_rank,
    r = Ok page_rank /\
    Dict.keys page_rank = Dict.keys corpus /\
    pysum (Dict.values page_rank) == 1.
Proof.
  intros Hne Hwf Hrun. pose proof (wf_corpus_keys _ Hwf) as Hnd.
  apply iterate_pagerank_run in Hrun as (x & Hx & ->).
  rewrite iterate_run_loop in Hx by exact Hne.
  assert (Hstep : forall st, iter_inv corpus st ->
            exists st',
              iterate_body corpus (1 / len corpus) ((1 - d) / len corpus) d st
              = Ok st' /\ iter_inv corpus st').
  { intros st Hinv. eexists. now apply iterate_body_inv. }
  destruct (iterate_loop_invariant (iter_inv corpus) corpus _ _ d Hstep
              fuel _ x (iterate_init_inv corpus Hne Hnd) Hx)
    as (st' & -> & (Hk & _ & Hsum) & _).
  exists (page_rank st'). auto.
Qed.

(** X6: on a non-empty well-formed corpus [iterate_pagerank] never raises,
    for every damping factor from 0 to 1 (bounds included): a run that
    finishes returns a dict over the pages of the corpus, in order, whose
    values sum to 1. *)
Theorem iterate_pagerank_never_raises corpus d fuel r :
  corpus <> [] -> wf_corpus corpus = true ->
  0 <= d -> d <= 1 ->
  iterate_pagerank fuel corpus d = Some r ->
  exists page_rank,
    r = Ok page_rank /\
    Dict.keys page_rank = Dict.keys corpus /\
    pysum (Dict.values page_rank) == 1.
Proof.
  intros Hne Hwf _ _. now apply iterate_pagerank_finished.
Qed.

Lemma iterate_pagerank_never_raises_witness :
  exists page_rank,
    Ok [("A"%string, 32 # 64); ("B"%string, 32 # 64)] = Ok page_rank /\
    Dict.keys page_rank = Dict.keys two_cycle /\
    pysum (Dict.values page_rank) == 1.
Proof.
  apply (iterate_pagerank_never_raises two_cycle 1 1).
  - discriminate.
  - reflexivity.
  - discriminate.
  - apply Qle_refl.
  - vm_compute. reflexivity.
Defined.

(** X7: the loop starts with [max_change = 1/N], so on a corpus of 1000
    pages or more the loop condition [max_change > 0.001] is false at once:
    [iterate_pagerank] runs no sweep and returns [1/N] for every page,
    whatever the links and the damping factor. *)
Theorem iterate_pagerank_large_corpus corpus d fuel :
  (1000 <= List.length corpus)%nat ->
  nodupb (Dict.keys corpus) = true ->
  iterate_pagerank fuel corpus d
  = Some (Ok (tabulate (fun _ => 1 / len corpus) (Dict.keys corpus)))
  /\ iterate_trace fuel corpus d = [].
Proof.
  intros Hlen Hnd. apply nodupb_NoDup in Hnd.
  assert (Hne : corpus <> []).
  { intros ->. simpl in Hlen. lia. }
  assert (Hl : 1000 <= len corpus).
  { unfold len. change 1000 with (inject_Z 1000). rewrite <- Zle_Qle. lia. }
  assert (Hm : Qgt_bool (max_change (iterate_init corpus (1 / len corpus)))
                 (1 # 1000) = false).
  { apply Qgt_bool_false. cbn [iterate_init max_change].
    apply Qle_shift_div_r; lra. }
  split.
  - unfold iterate_pagerank. rewrite iterate_run_loop by exact Hne.
    destruct fuel; cbn [iterate_loop]; rewrite Hm;
      cbn [iterate_init page_rank];
      now rewrite comprehension_tabulate.
  - unfold iterate_trace. rewrite !pydiv_ok by now apply len_nonzero.
    destruct fuel; cbn [iterates]; now rewrite Hm.
Qed.

Lemma iterate_pagerank_large_corpus_witness :
  iterate_pagerank 0 (numbered_corpus 1000) DAMPING
  = Some (Ok (tabulate (fun _ => 1 / len (numbered_corpus 1000))
                (Dict.keys (numbered_corpus 1000))))
  /\ iterate_trace 0 (numbered_corpus 1000) DAMPING = [].
Proof.
  apply (iterate_pagerank_large_corpus (numbered_corpus 1000) DAMPING 0).
  - apply Nat.leb_le. vm_compute. reflexivity.
  - vm_compute. reflexivity.
Defined.

Lemma qsum_term_le f ks p :
  (forall k, In k ks -> 0 <= f k) -> In p ks -> f p <= qsum f ks.
Proof.
  induction ks as [|k ks IH]; intros Hf Hin; [contradiction|].
  rewrite qsum_cons.
  assert (Hk : 0 <= f k) by (apply Hf; now left).
  assert (Hs : 0 <= qsum f ks).
  { apply qsum_nonneg. intros k' Hk'. apply Hf. now right. }
  destruct Hin as [->|Hin].
  - lra.
  - assert (f p <= qsum f ks).
    { apply IH; [|exact Hin]. intros k' Hk'. apply Hf. now right. }
    lra.
Qed.

Section Floor.

Variable corpus : corpus_t.
Variable d : Q.
Hypothesis Hwf : wf_corpus corpus = true.
Hypothesis Hne : corpus <> [].
Hypothesis Hd : valid_damping d.

Let K := Dict.keys corpus.
Let ip := 1 / len corpus.
Let rp := (1 - d) / len corpus.

Lemma random_prob_pos : 0 < rp.
Proof.
  destruct Hd as [_ Hd1]. unfold rp.
  apply Qlt_shift_div_l; [now apply len_pos | lra].
Qed.

(** A sweep gives every page at least the random-jump share, when the
    ranks it starts from are not negative. *)
Lemma next_rank_floor a p :
  incl K (Dict.keys a) -> qsum (rank_of a) K == 1 ->
  (forall q, In q K -> 0 <= rank_of a q) ->
  rp <= next_rank corpus a ip rp d p.
Proof.
  intros Ha Hsa Hpos. destruct Hd as [Hd0 _].
  pose proof (next_rank_sweep corpus d Hwf Hne a p Ha Hsa) as Hn.
  fold ip rp K in Hn. rewrite Hn.
  assert (0 <= d * qsum (fun q => rank_of a q * weight corpus ip q p) K).
  { apply Qmult_le_0_compat; [lra|].
    apply qsum_nonneg. intros q Hq.
    apply Qmult_le_0_compat; [now apply Hpos | now apply weight_nonneg]. }
  lra.
Qed.

(** The loop invariant with the floor: every rank is at least
    [random_prob]. *)
Lemma iterate_body_floor st :
  iter_inv corpus st /\ (forall q, In q K -> rp <= rank_of (page_rank st) q) ->
  exists st',
    iterate_body corpus ip rp d st = Ok st'
    /\ (iter_inv corpus st'
        /\ (forall q, In q K -> rp <= rank_of (page_rank st') q)).
Proof.
  intros [Hinv Hfloor].
  destruct (iterate_body_inv corpus d Hwf Hne st Hinv) as [Hb Hinv'].
  fold ip rp in Hb, Hinv'.
  destruct (iter_inv_sum corpus Hwf st Hinv) as [Ha Hsa]. fold K in Ha, Hsa.
  exists (next_state corpus ip rp d st). split; [exact Hb|].
  split; [exact Hinv'|].
  intros q Hq. unfold next_state. cbn [page_rank].
  rewrite (rank_of_tabulate _ _ q Hq).
  apply next_rank_floor; [exact Ha | exact Hsa|].
  intros q' Hq'. pose proof random_prob_pos. specialize (Hfloor q' Hq'). lra.
Qed.

Lemma iterate_init_floor :
  iter_inv corpus (iterate_init corpus ip)
  /\ (forall q, In q K -> rp <= rank_of (page_rank (iterate_init corpus ip)) q).
Proof.
  pose proof (wf_corpus_keys _ Hwf) as Hnd.
  split; [now apply iterate_init_inv|].
  intros q Hq. cbn [iterate_init page_rank].
  rewrite comprehension_tabulate by exact Hnd.
  rewrite (rank_of_tabulate _ _ q Hq).
  destruct Hd as [Hd0 _]. pose proof (len_pos corpus Hne) as HN.
  unfold rp, ip. apply Qle_shift_div_l; [exact HN|].
  apply Qle_trans with (y := 1 - d); [|lra].
  apply Qle_lteq. right. field. now apply len_nonzero.
Qed.

(** The first sweep changes the ranks by at most 2 in total. *)
Lemma pending_init : pending corpus ip rp d (iterate_init corpus ip) <= 2.
Proof.
  destruct iterate_init_floor as [Hinv Hfloor].
  destruct (iterate_body_floor _ (conj Hinv Hfloor)) as (st' & Hb & Hinv' & Hfloor').
  destruct (iterate_body_inv corpus d Hwf Hne _ Hinv) as [Hb' _].
  fold ip rp in Hb'. rewrite Hb' in Hb. injection Hb as <-.
  destruct (iter_inv_sum corpus Hwf _ Hinv) as [_ Hsa].
  destruct (iter_inv_sum corpus Hwf _ Hinv') as [_ Hsb].
  fold K in Hsa, Hsb. pose proof random_prob_pos as Hrp.
  unfold pending, total_change. fold K.
  apply Qle_trans
    with (y := qsum (fun p => rank_of (page_rank (iterate_init corpus ip)) p
                              + rank_of (page_rank (next_state corpus ip rp d
                                                      (iterate_init corpus ip))) p) K).
  - apply qsum_le. intros p Hp.
    specialize (Hfloor p Hp). specialize (Hfloor' p Hp).
    apply Qabs_Qle_condition. split; lra.
  - rewrite qsum_plus, Hsa, Hsb. discriminate.
Qed.

End Floor.

(** X8: for every non-empty well-formed corpus and damping factor of (0,1)
    [iterate_pagerank] returns a distribution in which every page has at
    least the random-jump share [(1-d)/N], hence a positive rank, and at
    most 1. *)
Theorem iterate_pagerank_value_bounds corpus d :
  corpus <> [] -> wf_corpus corpus = true -> valid_damping d ->
  exists fuel page_rank,
    iterate_pagerank fuel corpus d = Some (Ok page_rank) /\
    forall p v, Dict.get page_rank p = Some v ->
                0 < v /\ (1 - d) / len corpus <= v /\ v <= 1.
Proof.
  intros Hne Hwf Hd.
  destruct (iterate_run_terminates corpus d Hne Hwf Hd) as (fuel & st & Hrun & _).
  pose proof Hrun as Hrun'. rewrite iterate_run_loop in Hrun' by exact Hne.
  destruct (iterate_loop_invariant _ corpus _ _ d
              (iterate_body_floor corpus d Hwf Hne Hd)
              fuel _ _ (iterate_init_floor corpus d Hwf Hne Hd) Hrun')
    as (st' & [= <-] & (Hinv & Hfloor) & _).
  exists fuel, (page_rank st). split.
  { unfold iterate_pagerank. now rewrite Hrun. }
  intros p v Hv.
  destruct (iter_inv_sum corpus Hwf st Hinv) as [_ Hsum].
  destruct Hinv as (Hk & _ & _).
  assert (Hp : In p (Dict.keys corpus)).
  { rewrite <- Hk. now apply get_In_keys in Hv. }
  assert (Hr : rank_of (page_rank st) p = v).
  { unfold rank_of. now rewrite Hv. }
  pose proof (random_prob_pos corpus d Hne Hd) as Hrp.
  pose proof (Hfloor p Hp) as Hf. rewrite Hr in Hf.
  split; [lra|]. split; [exact Hf|].
  rewrite <- Hr, <- Hsum. apply qsum_term_le; [|exact Hp].
  intros q Hq. specialize (Hfloor q Hq). lra.
Qed.

Lemma iterate_pagerank_value_bounds_witness :
  exists fuel page_rank,
    iterate_pagerank fuel dangling3 DAMPING = Some (Ok page_rank) /\
    forall p v, Dict.get page_rank p = Some v ->
                0 < v /\ (1 - DAMPING) / len dangling3 <= v /\ v <= 1.
Proof.
  apply (iterate_pagerank_value_bounds dangling3 DAMPING).
  - discriminate.
  - reflexivity.
  - split; reflexivity.
Defined.

(** When [2 * d ^ k <= 0.001] the loop ends within [k + 1] sweeps. *)
Lemma iterate_run_sweeps_bound corpus d k :
  corpus <> [] -> wf_corpus corpus = true -> valid_damping d ->
  2 * decay d k <= 1 # 1000 ->
  exists st,
    iterate_run (S k) corpus d = Some (Ok st) /\
    (iteration st <= S k)%nat /\
    iterate_pagerank (S k) corpus d = Some (Ok (page_rank st)) /\
    Dict.keys (page_rank st) = Dict.keys corpus /\
    pysum (Dict.values (page_rank st)) == 1.
Proof.
  intros Hne Hwf Hd Hk. pose proof Hd as [Hd0 _].
  destruct (iterate_loop_terminates corpus d Hwf Hne (Qlt_le_weak _ _ Hd0) k
              (iterate_init corpus (1 / len corpus)) 2)
    as (st & Hrun & Hki & _ & Hsum).
  - now apply iterate_init_inv, wf_corpus_keys.
  - now apply pending_init.
  - exact Hk.
  - exists st. rewrite <- iterate_run_loop in Hrun by exact Hne.
    split; [exact Hrun|]. split; [|split; [|split; assumption]].
    + rewrite iterate_run_loop in Hrun by exact Hne.
      apply iterate_loop_iteration in Hrun. cbn [iterate_init iteration] in Hrun.
      lia.
    + unfold iterate_pagerank. now rewrite Hrun.
Qed.

Lemma decay_DAMPING : 2 * decay DAMPING 47 <= 1 # 1000.
Proof. apply Qle_bool_iff. vm_compute. reflexivity. Qed.

(** X9: with the damping factor of the source, [DAMPING = 0.85],
    [iterate_pagerank] on any non-empty well-formed corpus finishes within
    48 sweeps ([iteration <= 48] on return): one sweep shrinks the summed
    change by 0.85 and [2 * 0.85 ^ 47 <= 0.001]. *)
Theorem iterate_pagerank_default_sweeps corpus :
  corpus <> [] -> wf_corpus corpus = true ->
  exists st,
    iterate_run 48 corpus DAMPING = Some (Ok st) /\
    (iteration st <= 48)%nat /\
    iterate_pagerank 48 corpus DAMPING = Some (Ok (page_rank st)).
Proof.
  intros Hne Hwf.
  destruct (iterate_run_sweeps_bound corpus DAMPING 47 Hne Hwf valid_DAMPING
              decay_DAMPING) as (st & H1 & H2 & H3 & _).
  now exists st.
Qed.

Lemma iterate_pagerank_default_sweeps_witness :
  exists st,
    iterate_run 48 dangling3 DAMPING = Some (Ok st) /\
    (iteration st <= 48)%nat /\
    iterate_pagerank 48 dangling3 DAMPING = Some (Ok (page_rank st)).
Proof.
  apply (iterate_pagerank_default_sweeps dangling3).
  - discriminate.
  - reflexivity.
Defined.

Lemma Qgt_bool_true' a b : Qgt_bool a b = true -> b < a.
Proof.
  unfold Qgt_bool. rewrite negb_true_iff. intros H.
  apply Qnot_le_lt. intros Hle. apply Qle_bool_iff in Hle. congruence.
Qed.

Lemma change_loop_max pr new ks : forall acc,
  incl ks (Dict.keys pr) -> incl ks (Dict.keys new) ->
  exists v, for_each (change_step pr new) ks acc = Ok v
            /\ acc <= v
            /\ forall p, In p ks -> Qabs (rank_of pr p - rank_of new p) <= v.
Proof.
  induction ks as [|p ks IH]; intros acc Hpr Hnew.
  - exists acc. split; [reflexivity|]. split; [apply Qle_refl|].
    intros p [].
  - cbn [for_each]. unfold change_step at 1.
    rewrite (getitem_rank_of pr p) by (apply Hpr; now left).
    rewrite (getitem_rank_of new p) by (apply Hnew; now left).
    cbn [bind].
    set (change := Qabs (rank_of pr p - rank_of new p)).
    assert (Hpr' : incl ks (Dict.keys pr)).
    { intros x Hx. apply Hpr. now right. }
    assert (Hnew' : incl ks (Dict.keys new)).
    { intros x Hx. apply Hnew. now right. }
    destruct (Qgt_bool change acc) eqn:E; cbn [bind].
    + apply Qgt_bool_true' in E.
      destruct (IH change Hpr' Hnew') as (v & Hv & Hle & Hall).
      exists v. split; [exact Hv|]. split; [lra|].
      intros q [<-|Hq]; [exact Hle | now apply Hall].
    + apply Qgt_bool_false in E.
      destruct (IH acc Hpr' Hnew') as (v & Hv & Hle & Hall).
      exists v. split; [exact Hv|]. split; [exact Hle|].
      intros q [<-|Hq]; [fold change; lra | now apply Hall].
Qed.

(** [max_change] is at least the change of every page. *)
Lemma change_of_max corpus pr new p :
  incl (Dict.keys corpus) (Dict.keys pr) ->
  incl (Dict.keys corpus) (Dict.keys new) ->
  In p (Dict.keys corpus) ->
  Qabs (rank_of pr p - rank_of new p) <= change_of corpus pr new.
Proof.
  intros Hpr Hnew Hp.
  destruct (change_loop_max pr new (Dict.keys corpus) 0 Hpr Hnew)
    as (v & Hv & _ & Hall).
  unfold change_of. rewrite Hv. simpl value. now apply Hall.
Qed.

(** X10: the stopping rule.  On a non-empty well-formed corpus, a run of
    [iterate_pagerank] that finishes either made no sweep (and returns the
    initial ranks [1/N]) or returns the result of a sweep that changed the
    rank of every page by at most 0.001. *)
Theorem iterate_pagerank_last_sweep corpus d fuel st :
  corpus <> [] -> wf_corpus corpus = true ->
  iterate_run fuel corpus d = Some (Ok st) ->
  (iteration st = O /\
   page_rank st = tabulate (fun _ => 1 / len corpus) (Dict.keys corpus))
  \/ (exists prev,
        iter_inv corpus prev /\
        iterate_body corpus (1 / len corpus) ((1 - d) / len corpus) d prev
        = Ok st /\
        forall p, In p (Dict.keys corpus) ->
          Qabs (rank_of (page_rank prev) p - rank_of (page_rank st) p)
          <= 1 # 1000).
Proof.
  intros Hne Hwf Hrun. pose proof (wf_corpus_keys _ Hwf) as Hnd.
  rewrite iterate_run_loop in Hrun by exact Hne.
  set (ip := 1 / len corpus) in *. set (rp := (1 - d) / len corpus) in *.
  set (J := fun s : iter_state =>
              iter_inv corpus s /\
              (s = iterate_init corpus ip \/
               exists prev,
                 iter_inv corpus prev /\
                 iterate_body corpus ip rp d prev = Ok s /\
                 forall p, In p (Dict.keys corpus) ->
                   Qabs (rank_of (page_rank prev) p - rank_of (page_rank s) p)
                   <= max_change s)).
  assert (Hstep : forall s, J s ->
            exists s', iterate_body corpus ip rp d s = Ok s' /\ J s').
  { intros s [Hinv _].
    destruct (iterate_body_inv corpus d Hwf Hne s Hinv) as [Hb Hinv'].
    fold ip rp in Hb, Hinv'.
    exists (next_state corpus ip rp d s). split; [exact Hb|].
    split; [exact Hinv'|]. right. exists s. split; [exact Hinv|].
    split; [exact Hb|]. intros p Hp.
    unfold next_state. cbn [page_rank max_change].
    destruct Hinv as (Hk & _ & _).
    apply change_of_max; [|rewrite keys_tabulate|exact Hp];
      try apply incl_refl.
    rewrite Hk. apply incl_refl. }
  assert (H0 : J (iterate_init corpus ip)).
  { split; [now apply iterate_init_inv | now left]. }
  destruct (iterate_loop_invariant J corpus ip rp d Hstep fuel _ _ H0 Hrun)
    as (st' & [= <-] & [_ [->|(prev & Hp1 & Hp2 & Hp3)]] & Hmc).
  - left. cbn [iterate_init iteration page_rank].
    split; [reflexivity | now apply comprehension_tabulate].
  - right. exists prev. split; [exact Hp1|]. split; [exact Hp2|].
    intros p Hp. specialize (Hp3 p Hp). lra.
Qed.

Lemma iterate_pagerank_last_sweep_witness :
  (iteration (next_state two_cycle (1 / len two_cycle)
                ((1 - DAMPING) / len two_cycle) DAMPING
                (iterate_init two_cycle (1 / len two_cycle))) = O /\
   page_rank (next_state two_cycle (1 / len two_cycle)
                ((1 - DAMPING) / len two_cycle) DAMPING
                (iterate_init two_cycle (1 / len two_cycle)))
   = tabulate (fun _ => 1 / len two_cycle) (Dict.keys two_cycle))
  \/ (exists prev,
        iter_inv two_cycle prev /\
        iterate_body two_cycle (1 / len two_cycle)
          ((1 - DAMPING) / len two_cycle) DAMPING prev
        = Ok (next_state two_cycle (1 / len two_cycle)
                ((1 - DAMPING) / len two_cycle) DAMPING
                (iterate_init two_cycle (1 / len two_cycle))) /\
        forall p, In p (Dict.keys two_cycle) ->
          Qabs (rank_of (page_rank prev) p
                - rank_of (page_rank
                             (next_state two_cycle (1 / len two_cycle)
                                ((1 - DAMPING) / len two_cycle) DAMPING
                                (iterate_init two_cycle (1 / len two_cycle)))) p)
          <= 1 # 1000).
Proof.
  apply (iterate_pagerank_last_sweep two_cycle DAMPING 1).
  - discriminate.
  - reflexivity.
  - vm_compute. reflexivity.
Defined.

(** ** [crawl] *)

Example crawl_sample_directory :
  crawl sample_findall sample_directory
  = Ok [("a.html"%string, ["b.html"%string]);
        ("b.html"%string, []);
        ("c.html"%string, [])].
Proof. reflexivity. Qed.

Lemma has_mem {V} (d : Dict.t V) k : Dict.has d k = mem k (Dict.keys d).
Proof.
  unfold Dict.has. induction d as [|[k' v] d IH]; simpl; [reflexivity|].
  destruct (String.eqb k k'); [reflexivity | exact IH].
Qed.

(** [for_each_update] for a body that reads the keys of the dict. *)
Lemma for_each_update_keys {V} (ks0 : list page) (f : page -> V -> result V)
    (body : Dict.t V -> page -> result (Dict.t V)) :
  (forall d k v, Dict.keys d = ks0 -> Dict.get d k = Some v ->
                 body d k = (v' <- f k v ;; Ok (Dict.set d k v'))) ->
  NoDup ks0 ->
  forall suf pre,
    Dict.keys (pre ++ suf) = ks0 ->
    for_each body (Dict.keys suf) (pre ++ suf)
    = (suf' <- map_result (fun kv => v' <- f (fst kv) (snd kv) ;; Ok (fst kv, v')) suf ;;
       Ok (pre ++ suf')).
Proof.
  intros Hbody Hnd. induction suf as [|[k v] suf IH]; intros pre Hk; simpl.
  - reflexivity.
  - assert (Hkn : ~ In k (Dict.keys pre)).
    { intros Hin. rewrite <- Hk, keys_app in Hnd. simpl in Hnd.
      apply NoDup_remove_2 in Hnd. apply Hnd. apply in_or_app. now left. }
    rewrite (Hbody _ k v Hk).
    2:{ rewrite get_app_r by exact Hkn. simpl. now rewrite String.eqb_refl. }
    destruct (f k v) as [v'|e]; simpl; [|reflexivity].
    rewrite set_app_r by exact Hkn. simpl. rewrite String.eqb_refl.
    change (pre ++ (k, v') :: suf) with (pre ++ [(k, v')] ++ suf).
    rewrite app_assoc. rewrite IH.
    + destruct (map_result _ suf) as [suf'|e]; simpl; [|reflexivity].
      now rewrite <- app_assoc.
    + rewrite <- Hk, !keys_app. simpl. now rewrite <- app_assoc.
Qed.

(** The first loop of [crawl] on a listing without repeated names. *)
Lemma crawl_read_fold findall directory : forall acc,
  NoDup (Dict.keys acc ++ map fst directory) ->
  fold_left (crawl_read findall) directory acc
  = acc ++ map (fun entry =>
                  (fst entry,
                   remove string_dec (fst entry)
                     (nodup string_dec (findall (snd entry)))))
             (html_files directory).
Proof.
  induction directory as [|[filename contents] directory IH]; intros acc Hnd.
  - simpl. now rewrite app_nil_r.
  - cbn [fold_left crawl_read html_files filter fst snd map] in *.
    assert (Hf : ~ In filename (Dict.keys acc)).
    { intros Hin. apply NoDup_remove_2 in Hnd. apply Hnd.
      apply in_or_app. now left. }
    destruct (endswith filename ".html"); cbn [negb].
    + rewrite set_fresh by exact Hf. rewrite IH.
      * fold (html_files directory). cbn [map fst snd].
        now rewrite <- app_assoc.
      * rewrite keys_app. simpl. now rewrite <- app_assoc.
    + rewrite IH; [reflexivity|]. now apply NoDup_remove_1 in Hnd.
Qed.

Lemma html_files_names directory :
  map fst (html_files directory)
  = filter (fun name => endswith name ".html") (map fst directory).
Proof.
  unfold html_files. induction directory as [|[f c] directory IH]; simpl;
    [reflexivity|].
  destruct (endswith f ".html"); simpl; now rewrite IH.
Qed.

(** [crawl] in closed form: one item per HTML file, in the order of the
    listing, with the links found in it except the file itself and the
    names that are not HTML files of the directory. *)
Lemma crawl_closed_form findall directory :
  NoDup (map fst directory) ->
  crawl findall directory
  = Ok (map (fun entry =>
               (fst entry,
                filter (fun link => mem link (map fst (html_files directory)))
                  (remove string_dec (fst entry)
                     (nodup string_dec (findall (snd entry))))))
          (html_files directory)).
Proof.
  intros Hnd. unfold crawl. cbv zeta.
  rewrite (crawl_read_fold findall directory []) by exact Hnd.
  cbn [app].
  set (pages := map (fun entry =>
                       (fst entry,
                        remove string_dec (fst entry)
                          (nodup string_dec (findall (snd entry)))))
                  (html_files directory)).
  set (K0 := map fst (html_files directory)).
  assert (Hk : Dict.keys pages = K0).
  { unfold pages, Dict.keys. rewrite map_map. reflexivity. }
  assert (Hnd' : NoDup K0).
  { unfold K0. rewrite html_files_names. now apply NoDup_filter. }
  assert (Hbody : forall (d : corpus_t) k v,
             Dict.keys d = K0 -> Dict.get d k = Some v ->
             crawl_filter d k
             = (v' <- Ok (filter (fun link => mem link K0) v) ;;
                Ok (Dict.set d k v'))).
  { intros d k v Hd Hv. unfold crawl_filter, Dict.getitem. rewrite Hv.
    cbn [bind]. do 2 f_equal. apply filter_ext. intros link.
    now rewrite has_mem, Hd. }
  pose proof (for_each_update_keys K0
                (fun _ links => Ok (filter (fun link => mem link K0) links))
                crawl_filter Hbody Hnd' pages [] Hk) as H.
  etransitivity; [exact H|].
  rewrite (map_result_ok _
             (fun kv => (fst kv, filter (fun link => mem link K0) (snd kv))))
    by reflexivity.
  cbn [bind]. unfold pages. rewrite map_map. reflexivity.
Qed.

Lemma NoDup_remove_elt (x : page) l : NoDup l -> NoDup (remove string_dec x l).
Proof.
  induction l as [|y l IH]; intros Hnd; simpl; [constructor|].
  inversion Hnd as [|? ? Hy Hnd']; subst.
  destruct (string_dec x y); [now apply IH|].
  constructor; [|now apply IH].
  intros Hin. apply in_remove in Hin. now destruct Hin.
Qed.

Lemma In_get_item {V} (d : Dict.t V) k v :
  NoDup (Dict.keys d) -> In (k, v) d -> Dict.get d k = Some v.
Proof.
  induction d as [|[k' v'] d IH]; simpl; [contradiction|].
  intros Hnd [Heq|Hin]; inversion Hnd; subst.
  - injection Heq as -> ->. now rewrite String.eqb_refl.
  - destruct (String.eqb_spec k k') as [->|Hne].
    + exfalso. apply H1. change k' with (fst (k', v)). now apply in_map.
    + now apply IH.
Qed.

Lemma crawl_invariants findall directory :
  NoDup (map fst directory) ->
  exists corpus,
    crawl findall directory = Ok corpus /\
    wf_corpus corpus = true /\
    Dict.keys corpus
    = filter (fun name => endswith name ".html") (map fst directory) /\
    (forall p links, Dict.get corpus p = Some links -> ~ In p links).
Proof.
  intros Hnd. eexists. split; [now apply crawl_closed_form|].
  set (K0 := map fst (html_files directory)).
  set (corpus := map _ (html_files directory)).
  assert (Hk : Dict.keys corpus = K0).
  { unfold corpus, Dict.keys. rewrite map_map. reflexivity. }
  assert (Hnd' : NoDup K0).
  { unfold K0. rewrite html_files_names. now apply NoDup_filter. }
  split; [|split].
  - unfold wf_corpus. rewrite Hk. apply andb_true_iff. split.
    + now apply nodupb_NoDup.
    + apply forallb_forall. intros [p links] Hin.
      unfold corpus in Hin. apply in_map_iff in Hin as (entry & [= <- <-] & _).
      cbn [snd]. apply andb_true_iff. split.
      * apply nodupb_NoDup. apply NoDup_filter. apply NoDup_remove_elt.
        apply NoDup_nodup.
      * apply forallb_forall. intros l Hl. apply filter_In in Hl. apply Hl.
  - rewrite Hk. apply html_files_names.
  - intros p links Hget Hself. apply get_In in Hget.
    unfold corpus in Hget. apply in_map_iff in Hget as (entry & [= <- <-] & _).
    apply filter_In in Hself as [Hself _].
    now apply remove_In in Hself.
Qed.


(** X11: on a listing without repeated names [crawl] does not raise and
    returns a corpus that satisfies the Graph invariants: its pages are the
    files whose name ends in [.html], in the order of the listing and none
    twice; every link set is duplicate-free and holds only pages of the
    corpus; and no page links to itself. *)
Theorem crawl_wf findall directory :
  NoDup (map fst directory) ->
  exists corpus,
    crawl findall directory = Ok corpus /\
    wf_corpus corpus = true /\
    Dict.keys corpus
    = filter (fun name => endswith name ".html") (map fst directory) /\
    (forall p links, Dict.get corpus p = Some links -> ~ In p links).
Proof.
  apply crawl_invariants.
Qed.

Lemma crawl_wf_witness :
  exists corpus,
    crawl sample_findall sample_directory = Ok corpus /\
    wf_corpus corpus = true /\
    Dict.keys corpus
    = filter (fun name => endswith name ".html") (map fst sample_directory) /\
    (forall p links, Dict.get corpus p = Some links -> ~ In p links).
Proof.
  apply (crawl_wf sample_findall sample_directory).
  apply nodupb_NoDup. reflexivity.
Defined.

(** X12: the links [crawl] gives to an HTML file of the directory are
    exactly the targets found in its contents that are not the file itself
    and are pages of the corpus. *)
Theorem crawl_links findall directory filename contents :
  NoDup (map fst directory) ->
  In (filename, contents) directory ->
  endswith filename ".html" = true ->
  exists corpus links,
    crawl findall directory = Ok corpus /\
    Dict.get corpus filename = Some links /\
    forall link,
      In link links <->
      In link (findall contents) /\ link <> filename
      /\ In link (Dict.keys corpus).
Proof.
  intros Hnd Hin Hhtml. eexists. eexists.
  split; [now apply crawl_closed_form|].
  set (K0 := map fst (html_files directory)).
  set (corpus := map _ (html_files directory)).
  assert (Hk : Dict.keys corpus = K0).
  { unfold corpus, Dict.keys. rewrite map_map. reflexivity. }
  assert (Hnd' : NoDup K0).
  { unfold K0. rewrite html_files_names. now apply NoDup_filter. }
  split.
  - apply In_get_item; [now rewrite Hk|].
    unfold corpus. apply in_map_iff. exists (filename, contents).
    split; [reflexivity|]. apply filter_In. now split.
  - intros link. cbn [fst snd]. rewrite Hk, filter_In, mem_In. split.
    + intros [Hr Hm]. apply in_remove in Hr as [Hr Hne].
      apply nodup_In in Hr. auto.
    + intros (Hf & Hne & Hm). split; [|exact Hm].
      apply in_in_remove; [exact Hne | now apply nodup_In].
Qed.

Lemma crawl_links_witness :
  exists corpus links,
    crawl sample_findall sample_directory = Ok corpus /\
    Dict.get corpus "a.html"%string = Some links /\
    forall link,
      In link links <->
      In link (sample_findall "b.html"%string) /\ link <> "a.html"%string
      /\ In link (Dict.keys corpus).
Proof.
  apply (crawl_links sample_findall sample_directory
           "a.html"%string "b.html"%string).
  - apply nodupb_NoDup. reflexivity.
  - now left.
  - reflexivity.
Defined.

(** X13: the engines accept what [crawl] returns.  For a listing without
    repeated names that has at least one HTML file, [crawl] followed by
    [sample_pagerank] and by [iterate_pagerank] with the constants of the
    source, [DAMPING = 0.85] and [SAMPLES = 10000] (the chain [main] runs),
    raises nowhere, and the iteration ends within 48 sweeps with a
    distribution over the HTML files that sums to 1. *)
Theorem crawl_then_rank findall directory r :
  NoDup (map fst directory) ->
  html_files directory <> [] ->
  valid_rng r ->
  exists corpus sampled iterated,
    crawl findall directory = Ok corpus /\
    sample_pagerank r corpus DAMPING SAMPLES = Ok sampled /\
    iterate_pagerank 48 corpus DAMPING = Some (Ok iterated) /\
    Dict.keys iterated = map fst (html_files directory) /\
    pysum (Dict.values iterated) == 1.
Proof.
  intros Hnd Hhtml Hr.
  destruct (crawl_invariants findall directory Hnd) as (corpus & Hc & Hwf & Hk & _).
  rewrite <- html_files_names in Hk.
  assert (Hne : corpus <> []).
  { intros ->. simpl in Hk. destruct (html_files directory);
      [now apply Hhtml | discriminate]. }
  destruct (sample_pagerank_never_raises_aux r corpus DAMPING SAMPLES Hne Hwf Hr)
    as [Hs _].
  destruct (iterate_run_sweeps_bound corpus DAMPING 47 Hne Hwf valid_DAMPING
              decay_DAMPING) as (st & _ & _ & Hrun & Hki & Hsum).
  exists corpus, (normalize SAMPLES (tally (drawn r corpus DAMPING SAMPLES))),
    (page_rank st).
  split; [exact Hc|]. split; [exact Hs|]. split; [exact Hrun|].
  split; [now rewrite Hki | exact Hsum].
Qed.

Lemma crawl_then_rank_witness :
  exists corpus sampled iterated,
    crawl sample_findall sample_directory = Ok corpus /\
    sample_pagerank zeros corpus DAMPING SAMPLES = Ok sampled /\
    iterate_pagerank 48 corpus DAMPING = Some (Ok iterated) /\
    Dict.keys iterated = map fst (html_files sample_directory) /\
    pysum (Dict.values iterated) == 1.
Proof.
  apply (crawl_then_rank sample_findall sample_directory zeros).
  - apply nodupb_NoDup. reflexivity.
  - discriminate.
  - intros i. split; [apply Qle_refl | reflexivity].
Defined.
